(** * WiredTiger btree.h: page/item formats and the page life cycle

    A shallow embedding of the macros and structures of
    [src/include/btree.h].  Fixed-width C integers are [Z] with the
    wrap-around of each conversion written out; a macro that assigns
    through a pointer is a function returning the updated structure; an
    expression whose C behaviour is undefined (signed overflow, division
    by zero, an out-of-bounds read) evaluates to [None]. *)

From Stdlib Require Import ZArith Lia List Bool String.
From stdpp Require Import base numbers list option.
From coqutil Require Import Byte Word.LittleEndianList.

Local Open Scope Z_scope.

(* ===================================================================== *)
(** ** Fixed-width integers *)
(* ===================================================================== *)

Definition UINT32_MAX : Z := 4294967295.
Definition UINT64_MAX : Z := 18446744073709551615.

(** Conversion to [uint32_t]. *)
Definition wrap32 (z : Z) : Z := z mod 2 ^ 32.

(** [off_t] is the signed 64-bit file-size type of the OS layer ("32-bits
    is too small (a file might be larger than 4GB)"). *)
Definition OFF_T_MIN : Z := - 2 ^ 63.
Definition OFF_T_MAX : Z := 2 ^ 63 - 1.

Definition in_off_t (z : Z) : bool := (OFF_T_MIN <=? z) && (z <=? OFF_T_MAX).

(** Multiplication in [off_t]: signed overflow is undefined in C. *)
Definition off_t_mul (a b : Z) : option Z :=
  if in_off_t (a * b) then Some (a * b) else None.

(** Division in [off_t]: truncates toward zero; a zero divisor is undefined,
    and so is the one overflowing quotient. *)
Definition off_t_div (a b : Z) : option Z :=
  if b =? 0 then None
  else if in_off_t (a ÷ b) then Some (a ÷ b) else None.

(* ===================================================================== *)
(** ** File allocation units and addresses *)
(* ===================================================================== *)

(** Modelled from the spec: [WT_MEGABYTE] is defined outside this header;
    the allocation unit ranges over "512 B–128 MB", so it is 2^20. *)
Definition WT_MEGABYTE : Z := 1048576.

Definition WT_BTREE_ALLOCATION_SIZE : Z := 512.
Definition WT_BTREE_ALLOCATION_SIZE_MAX : Z := 128 * WT_MEGABYTE.
Definition WT_BTREE_PAGE_SIZE_MAX : Z := 256 * WT_MEGABYTE.

(** Modelled from the spec: the [DB] handle is declared outside this header;
    the macros below read only its [allocsize] member, a [uint32_t] holding
    the file's allocation unit. *)
Record DB := { allocsize : Z }.

(** [#define WT_ADDR_TO_OFF(db, addr) ((off_t)(addr) * (db)->allocsize)];
    [addr] is a [uint32_t], which [off_t] holds as it is. *)
Definition WT_ADDR_TO_OFF (db : DB) (addr : Z) : option Z :=
  off_t_mul addr (allocsize db).

(** [#define WT_OFF_TO_ADDR(db, off) ((uint32_t)((off) / (db)->allocsize))] *)
Definition WT_OFF_TO_ADDR (db : DB) (off : Z) : option Z :=
  q ← off_t_div off (allocsize db); Some (wrap32 q).

Definition WT_ADDR_DELETED : Z := UINT32_MAX - 1.
Definition WT_ADDR_INVALID : Z := UINT32_MAX.

(* ===================================================================== *)
(** ** WT_ITEM: the 4-byte type/length cell *)
(* ===================================================================== *)

Definition WT_ITEM_MAX_LEN : Z := 16 * 1024 * 1024 - 1.

Record WT_ITEM := { __item_chunk : Z }.

Definition WT_ITEM_SIZE : Z := 4.

Definition WT_ITEM_KEY : Z := 0x00000000.
Definition WT_ITEM_KEY_OVFL : Z := 0x01000000.
Definition WT_ITEM_KEY_DUP : Z := 0x02000000.
Definition WT_ITEM_KEY_DUP_OVFL : Z := 0x03000000.
Definition WT_ITEM_DATA : Z := 0x04000000.
Definition WT_ITEM_DATA_OVFL : Z := 0x05000000.
Definition WT_ITEM_DATA_DUP : Z := 0x06000000.
Definition WT_ITEM_DATA_DUP_OVFL : Z := 0x07000000.
Definition WT_ITEM_DEL : Z := 0x08000000.
Definition WT_ITEM_OFF : Z := 0x09000000.
Definition WT_ITEM_OFF_RECORD : Z := 0x0a000000.

(** "There are currently 11 item types, using 4 bits". *)
Inductive item_type : Type :=
  | ItemKey | ItemKeyOvfl | ItemKeyDup | ItemKeyDupOvfl
  | ItemData | ItemDataOvfl | ItemDataDup | ItemDataDupOvfl
  | ItemDel | ItemOff | ItemOffRecord.

Definition item_types : list item_type :=
  [ItemKey; ItemKeyOvfl; ItemKeyDup; ItemKeyDupOvfl; ItemData; ItemDataOvfl;
   ItemDataDup; ItemDataDupOvfl; ItemDel; ItemOff; ItemOffRecord].

Definition item_type_code (t : item_type) : Z :=
  match t with
  | ItemKey => WT_ITEM_KEY
  | ItemKeyOvfl => WT_ITEM_KEY_OVFL
  | ItemKeyDup => WT_ITEM_KEY_DUP
  | ItemKeyDupOvfl => WT_ITEM_KEY_DUP_OVFL
  | ItemData => WT_ITEM_DATA
  | ItemDataOvfl => WT_ITEM_DATA_OVFL
  | ItemDataDup => WT_ITEM_DATA_DUP
  | ItemDataDupOvfl => WT_ITEM_DATA_DUP_OVFL
  | ItemDel => WT_ITEM_DEL
  | ItemOff => WT_ITEM_OFF
  | ItemOffRecord => WT_ITEM_OFF_RECORD
  end.

(** [#define WT_ITEM_TYPE(addr) (((WT_ITEM * )(addr))->__item_chunk & 0x0f000000)] *)
Definition WT_ITEM_TYPE (addr : WT_ITEM) : Z :=
  Z.land (__item_chunk addr) 0x0f000000.

(** [#define WT_ITEM_LEN(addr) (((WT_ITEM * )(addr))->__item_chunk & 0x00ffffff)] *)
Definition WT_ITEM_LEN (addr : WT_ITEM) : Z :=
  Z.land (__item_chunk addr) 0x00ffffff.

(** [#define WT_ITEM_SET(addr, type, size)
        (((WT_ITEM * )(addr))->__item_chunk = (type) | (size))]
    The store into the [uint32_t] member truncates to 32 bits. *)
Definition WT_ITEM_SET (addr : WT_ITEM) (type size : Z) : WT_ITEM :=
  {| __item_chunk := wrap32 (Z.lor type size) |}.

(** [#define WT_ITEM_SET_LEN(addr, size)
        WT_ITEM_SET(addr, WT_ITEM_TYPE(addr), size)] *)
Definition WT_ITEM_SET_LEN (addr : WT_ITEM) (size : Z) : WT_ITEM :=
  WT_ITEM_SET addr (WT_ITEM_TYPE addr) size.

(** [#define WT_ITEM_SET_TYPE(addr, type)
        WT_ITEM_SET(addr, type, WT_ITEM_LEN(addr))] *)
Definition WT_ITEM_SET_TYPE (addr : WT_ITEM) (type : Z) : WT_ITEM :=
  WT_ITEM_SET addr type (WT_ITEM_LEN addr).

(** What a caller of the encode macro observes: the macro is an assignment
    expression, so it always leaves a cell behind and has no error path. *)
Inductive encode_outcome : Type :=
  | EncodedCell (cell : WT_ITEM)
  | SizeLimitError.

Definition item_encode (addr : WT_ITEM) (type size : Z) : encode_outcome :=
  EncodedCell (WT_ITEM_SET addr type size).

(** A cell as it sits on a page: any 32-bit value. *)
Definition is_cell (c : WT_ITEM) : Prop := 0 <= __item_chunk c <= UINT32_MAX.

(* ===================================================================== *)
(** ** WT_REF and WT_PAGE *)
(* ===================================================================== *)

(** A pointer is the address it holds; [NULL] is address zero. *)
Definition ptr : Type := Z.
Definition NULL : ptr := 0.

Definition WT_REF_CACHE : Z := 1.
Definition WT_REF_DISK : Z := 0.
Definition WT_REF_EVICT : Z := 2.

(** [struct __wt_ref { WT_PAGE *page; uint32_t volatile state; }] *)
Record WT_REF := { ref_page : ptr; ref_state : Z }.

(** The [u3] union overlays [WT_REF *ref], an array of structures, with
    [WT_REF **dup], an array of pointers: one pointer-sized slot that is
    NULL or holds one of the two arrays. *)
Inductive u3_union : Type :=
  | U3_NULL
  | U3_ref (refs : list WT_REF)
  | U3_dup (dups : list ptr).

(** [struct __wt_page].  The [u] union ([icol], [irow], [indx]) is one
    pointer, the address of the first index entry.  The [u2] union overlays
    [WT_REPL **repl] and [WT_RLE_EXPAND **rleexp], both arrays of pointers:
    [None] is the NULL pointer, [Some a] the allocated array. *)
Record WT_PAGE := {
  page_addr : Z;
  page_size : Z;
  page_records : Z;
  parent : ptr;
  parent_off : ptr;
  dsk : ptr;
  read_gen : Z;
  disk_gen : Z;
  write_gen : Z;
  indx_count : Z;
  u_indx : ptr;
  u2 : option (list ptr);
  u3 : u3_union
}.

Definition set_read_gen (v : Z) (p : WT_PAGE) : WT_PAGE :=
  {| page_addr := page_addr p; page_size := page_size p;
     page_records := page_records p; parent := parent p;
     parent_off := parent_off p; dsk := dsk p; read_gen := v;
     disk_gen := disk_gen p; write_gen := write_gen p;
     indx_count := indx_count p; u_indx := u_indx p; u2 := u2 p; u3 := u3 p |}.

Definition set_disk_gen (v : Z) (p : WT_PAGE) : WT_PAGE :=
  {| page_addr := page_addr p; page_size := page_size p;
     page_records := page_records p; parent := parent p;
     parent_off := parent_off p; dsk := dsk p; read_gen := read_gen p;
     disk_gen := v; write_gen := write_gen p;
     indx_count := indx_count p; u_indx := u_indx p; u2 := u2 p; u3 := u3 p |}.

Definition set_write_gen (v : Z) (p : WT_PAGE) : WT_PAGE :=
  {| page_addr := page_addr p; page_size := page_size p;
     page_records := page_records p; parent := parent p;
     parent_off := parent_off p; dsk := dsk p; read_gen := read_gen p;
     disk_gen := disk_gen p; write_gen := v;
     indx_count := indx_count p; u_indx := u_indx p; u2 := u2 p; u3 := u3 p |}.

Definition set_u2 (v : option (list ptr)) (p : WT_PAGE) : WT_PAGE :=
  {| page_addr := page_addr p; page_size := page_size p;
     page_records := page_records p; parent := parent p;
     parent_off := parent_off p; dsk := dsk p; read_gen := read_gen p;
     disk_gen := disk_gen p; write_gen := write_gen p;
     indx_count := indx_count p; u_indx := u_indx p; u2 := v; u3 := u3 p |}.

(** [#define WT_PAGE_SET_PIN(p) ((p)->read_gen = UINT64_MAX)] *)
Definition WT_PAGE_SET_PIN (p : WT_PAGE) : WT_PAGE := set_read_gen UINT64_MAX p.

(** [#define WT_PAGE_IS_PINNED(p) ((p)->read_gen == UINT64_MAX)] *)
Definition WT_PAGE_IS_PINNED (p : WT_PAGE) : bool := read_gen p =? UINT64_MAX.

(** [#define WT_PAGE_DISK_WRITE(p) ((p)->disk_gen = (p)->write_gen)] *)
Definition WT_PAGE_DISK_WRITE (p : WT_PAGE) : WT_PAGE :=
  set_disk_gen (write_gen p) p.

(** [#define WT_PAGE_IS_MODIFIED(p) ((p)->disk_gen != (p)->write_gen)] *)
Definition WT_PAGE_IS_MODIFIED (p : WT_PAGE) : bool :=
  negb (disk_gen p =? write_gen p).

(** [#define WT_PAGE_SET_MODIFIED(p) (++(p)->write_gen)]; [write_gen] is a
    [uint32_t], so the increment wraps. *)
Definition WT_PAGE_SET_MODIFIED (p : WT_PAGE) : WT_PAGE :=
  set_write_gen (wrap32 (write_gen p + 1)) p.

(** [n] modifications in a row. *)
Fixpoint modify_times (n : nat) (p : WT_PAGE) : WT_PAGE :=
  match n with
  | O => p
  | S k => WT_PAGE_SET_MODIFIED (modify_times k p)
  end.

(* ===================================================================== *)
(** ** The arrays parallel to the index *)
(* ===================================================================== *)

Definition sizeof_pointer : Z := 8.

(** Modelled from the spec: [WT_ALIGN] is defined outside this header; it
    rounds [n] up to the next multiple of [v] ("padded so the next item
    begins 4-byte aligned"). *)
Definition WT_ALIGN (n v : Z) : Z := (n + (v - 1)) / v * v.

(** [#define WT_COL_SIZE (sizeof(void * ))] *)
Definition WT_COL_SIZE : Z := sizeof_pointer.

(** [#define WT_ROW_SIZE
        WT_ALIGN(2 * sizeof(void * ) + sizeof(uint32_t), sizeof(void * ))] *)
Definition WT_ROW_SIZE : Z := WT_ALIGN (2 * sizeof_pointer + 4) sizeof_pointer.

(** Subtraction of two pointers to elements of [elem] bytes. *)
Definition ptr_diff (elem : Z) (p q : ptr) : Z := (p - q) ÷ elem.

(** [#define WT_COL_SLOT(page, ip) ((uint32_t)((WT_COL * )(ip) - (page)->u.icol))] *)
Definition WT_COL_SLOT (page : WT_PAGE) (ip : ptr) : Z :=
  wrap32 (ptr_diff WT_COL_SIZE ip (u_indx page)).

(** [#define WT_ROW_SLOT(page, ip) ((uint32_t)((WT_ROW * )(ip) - (page)->u.irow))] *)
Definition WT_ROW_SLOT (page : WT_PAGE) (ip : ptr) : Z :=
  wrap32 (ptr_diff WT_ROW_SIZE ip (u_indx page)).

(** What a union member used as an array of pointers designates. *)
Inductive array_ref : Type :=
  | ArrNull
  | ArrPtrs (a : list ptr)
  | ArrPunned.

(** The members [u2.repl], [u2.rleexp] and [u3.dup].  The two members of
    [u2] are the same storage; [u3.dup] read while the slot holds the [ref]
    array is a non-NULL pointer to storage of another type. *)
Definition u2_repl (page : WT_PAGE) : array_ref :=
  match u2 page with None => ArrNull | Some a => ArrPtrs a end.

Definition u2_rleexp (page : WT_PAGE) : array_ref :=
  match u2 page with None => ArrNull | Some a => ArrPtrs a end.

Definition u3_dup (page : WT_PAGE) : array_ref :=
  match u3 page with
  | U3_NULL => ArrNull
  | U3_dup a => ArrPtrs a
  | U3_ref _ => ArrPunned
  end.

(** [a[slot]]: [None] when the read is out of bounds. *)
Definition array_read (a : list ptr) (slot : Z) : option ptr :=
  if slot <? 0 then None else a !! Z.to_nat slot.

(** [#define __WT_COL_ARRAY(page, ip, field)
        ((page)->field == NULL ? NULL : (page)->field[WT_COL_SLOT(page, ip)])]
    The result is [Some] pointer, [Some NULL] for "no structure", or [None]
    where the C expression has no defined value. *)
Definition __WT_COL_ARRAY (page : WT_PAGE) (ip : ptr)
    (field : WT_PAGE -> array_ref) : option ptr :=
  match field page with
  | ArrNull => Some NULL
  | ArrPtrs a => array_read a (WT_COL_SLOT page ip)
  | ArrPunned => None
  end.

Definition WT_COL_REPL (page : WT_PAGE) (ip : ptr) : option ptr :=
  __WT_COL_ARRAY page ip u2_repl.
Definition WT_COL_RLEEXP (page : WT_PAGE) (ip : ptr) : option ptr :=
  __WT_COL_ARRAY page ip u2_rleexp.

(** [#define __WT_ROW_ARRAY(page, ip, field)
        ((page)->field == NULL ? NULL : (page)->field[WT_ROW_SLOT(page, ip)])] *)
Definition __WT_ROW_ARRAY (page : WT_PAGE) (ip : ptr)
    (field : WT_PAGE -> array_ref) : option ptr :=
  match field page with
  | ArrNull => Some NULL
  | ArrPtrs a => array_read a (WT_ROW_SLOT page ip)
  | ArrPunned => None
  end.

Definition WT_ROW_REPL (page : WT_PAGE) (ip : ptr) : option ptr :=
  __WT_ROW_ARRAY page ip u2_repl.
Definition WT_ROW_DUP (page : WT_PAGE) (ip : ptr) : option ptr :=
  __WT_ROW_ARRAY page ip u3_dup.

(** [#define WT_PAGE_DUP_TREES(p) ((p)->u3.dup != NULL)] *)
Definition WT_PAGE_DUP_TREES (p : WT_PAGE) : bool :=
  match u3_dup p with ArrNull => false | _ => true end.

(** The address of index entry [k] of a column-store or row-store page. *)
Definition col_entry (page : WT_PAGE) (k : Z) : ptr := u_indx page + k * WT_COL_SIZE.
Definition row_entry (page : WT_PAGE) (k : Z) : ptr := u_indx page + k * WT_ROW_SIZE.

(* ===================================================================== *)
(** ** The serializing applier of scheduled modifications *)
(* ===================================================================== *)

Inductive apply_status : Type :=
  | APPLY_OK
  | WT_RESTART.

(** Modelled from the spec: the code that installs a modification is not in
    this header.  "On first modification to any entry on a page, allocate
    one overlay slot per index entry (all initialized empty).  A
    modification pushes a new overlay record onto the front of that slot's
    list": the slot receives the address of the new record, whose forward
    link holds the previous head. *)
Definition overlay_install (slot : nat) (new : ptr) (page : WT_PAGE) : WT_PAGE :=
  let a := match u2 page with
           | None => replicate (Z.to_nat (indx_count page)) NULL
           | Some a => a
           end in
  set_u2 (Some (<[slot := new]> a)) page.

(** Modelled from the spec: the workQ applier is not in this header.  "The
    applier compares the recorded generation to the page's current write
    generation — equal means the search is still valid and the change is
    applied and the generation bumped; unequal means a race occurred and the
    operation fails with a restart-required condition."  The bump is the
    header's [WT_PAGE_SET_MODIFIED]. *)
Definition workq_apply (recorded_gen : Z) (slot : nat) (new : ptr)
    (page : WT_PAGE) : apply_status * WT_PAGE :=
  if write_gen page =? recorded_gen
  then (APPLY_OK, WT_PAGE_SET_MODIFIED (overlay_install slot new page))
  else (WT_RESTART, page).

(* ===================================================================== *)
(** ** The file description structure *)
(* ===================================================================== *)

Inductive ctype : Type := uint8_t | uint16_t | uint32_t | uint64_t.

Definition sizeof (t : ctype) : Z :=
  match t with uint8_t => 1 | uint16_t => 2 | uint32_t => 4 | uint64_t => 8 end.

(** Each scalar is aligned to its own size ("the Solaris compiler inserts
    space into the structure if we don't put that field on an 8-byte
    boundary"). *)
Definition alignof (t : ctype) : Z := sizeof t.

(** A structure member: name, element type, element count (1 for a scalar). *)
Record member := { m_name : string; m_type : ctype; m_count : Z }.

Definition scalar (name : string) (t : ctype) : member :=
  {| m_name := name; m_type := t; m_count := 1 |}.
Definition array (name : string) (t : ctype) (n : Z) : member :=
  {| m_name := name; m_type := t; m_count := n |}.

(** The members of [struct __wt_page_desc], in declaration order. *)
Definition __wt_page_desc : list member :=
  [ scalar "magic" uint32_t;
    scalar "majorv" uint16_t;
    scalar "minorv" uint16_t;
    scalar "intlmax" uint32_t;
    scalar "intlmin" uint32_t;
    scalar "leafmax" uint32_t;
    scalar "leafmin" uint32_t;
    scalar "recno_offset" uint64_t;
    scalar "root_addr" uint32_t;
    scalar "root_size" uint32_t;
    scalar "records" uint64_t;
    scalar "free_addr" uint32_t;
    scalar "free_size" uint32_t;
    scalar "flags" uint32_t;
    scalar "fixed_len" uint8_t;
    array "unused1" uint8_t 3;
    array "unused2" uint32_t 112 ].

(** The compiler's layout: every member at the next offset that satisfies
    its alignment; returns the offsets and the first free offset. *)
Fixpoint layout_from (off : Z) (ms : list member) : list (string * Z) * Z :=
  match ms with
  | [] => ([], off)
  | m :: ms' =>
      let o := WT_ALIGN off (alignof (m_type m)) in
      let r := layout_from (o + sizeof (m_type m) * m_count m) ms' in
      ((m_name m, o) :: fst r, snd r)
  end.

Definition struct_align (ms : list member) : Z :=
  fold_right (fun m a => Z.max (alignof (m_type m)) a) 1 ms.

Definition struct_sizeof (ms : list member) : Z :=
  WT_ALIGN (snd (layout_from 0 ms)) (struct_align ms).

Fixpoint assoc_offset (name : string) (l : list (string * Z)) : option Z :=
  match l with
  | [] => None
  | (n, o) :: l' => if String.eqb n name then Some o else assoc_offset name l'
  end.

Definition offsetof (ms : list member) (name : string) : option Z :=
  assoc_offset name (fst (layout_from 0 ms)).

Definition WT_BTREE_MAGIC : Z := 120897.
Definition WT_BTREE_MAJOR_VERSION : Z := 0.
Definition WT_BTREE_MINOR_VERSION : Z := 1.
Definition WT_BTREE_INTLMAX_DEFAULT : Z := 2 * 1024.
Definition WT_BTREE_INTLMIN_DEFAULT : Z := 2 * 1024.
Definition WT_BTREE_LEAFMAX_DEFAULT : Z := WT_MEGABYTE.
Definition WT_BTREE_LEAFMIN_DEFAULT : Z := 32 * 1024.
Definition WT_PAGE_DESC_RLE : Z := 0x01.
Definition WT_PAGE_DESC_SIZE : Z := 512.

(** The named members of the structure; the two unused arrays are written
    as zero bytes. *)
Record WT_PAGE_DESC := {
  magic : Z;
  majorv : Z;
  minorv : Z;
  intlmax : Z;
  intlmin : Z;
  leafmax : Z;
  leafmin : Z;
  recno_offset : Z;
  root_addr : Z;
  root_size : Z;
  records : Z;
  free_addr : Z;
  free_size : Z;
  flags : Z;
  fixed_len : Z
}.

(** The structure is written in the byte order of the host. *)
Inductive byte_order : Type := LittleEndian | BigEndian.

Definition put (bo : byte_order) (t : ctype) (v : Z) : list byte :=
  match bo with
  | LittleEndian => le_split (Z.to_nat (sizeof t)) v
  | BigEndian => rev (le_split (Z.to_nat (sizeof t)) v)
  end.

Definition get (bo : byte_order) (t : ctype) (off : Z) (buf : list byte) : Z :=
  let bs := take (Z.to_nat (sizeof t)) (drop (Z.to_nat off) buf) in
  match bo with
  | LittleEndian => le_combine bs
  | BigEndian => le_combine (rev bs)
  end.

Definition fits (t : ctype) (v : Z) : bool :=
  (0 <=? v) && (v <? 2 ^ (8 * sizeof t)).

(** Modelled from the spec: the routine that writes the descriptor is not in
    this header.  "Encode ... the File Descriptor ... at [its] exact byte
    layout": the image of the structure, member after member. *)
Definition desc_encode (bo : byte_order) (d : WT_PAGE_DESC) : list byte :=
  put bo uint32_t (magic d) ++
  put bo uint16_t (majorv d) ++
  put bo uint16_t (minorv d) ++
  put bo uint32_t (intlmax d) ++
  put bo uint32_t (intlmin d) ++
  put bo uint32_t (leafmax d) ++
  put bo uint32_t (leafmin d) ++
  put bo uint64_t (recno_offset d) ++
  put bo uint32_t (root_addr d) ++
  put bo uint32_t (root_size d) ++
  put bo uint64_t (records d) ++
  put bo uint32_t (free_addr d) ++
  put bo uint32_t (free_size d) ++
  put bo uint32_t (flags d) ++
  put bo uint8_t (fixed_len d) ++
  replicate 3 Byte.x00 ++
  replicate (4 * 112) Byte.x00.

(** The offset of a member of the descriptor, from the layout. *)
Definition desc_offset (name : string) : Z :=
  default 0 (offsetof __wt_page_desc name).

(** Modelled from the spec: the routine that reads the descriptor is not in
    this header.  Every member is read at its offset in the structure; "the
    decoder must reject descriptors whose magic number or major version does
    not match the engine's". *)
Definition desc_decode (bo : byte_order) (buf : list byte) : option WT_PAGE_DESC :=
  if Z.of_nat (length buf) <? WT_PAGE_DESC_SIZE then None
  else
    let d :=
      {| magic := get bo uint32_t (desc_offset "magic") buf;
         majorv := get bo uint16_t (desc_offset "majorv") buf;
         minorv := get bo uint16_t (desc_offset "minorv") buf;
         intlmax := get bo uint32_t (desc_offset "intlmax") buf;
         intlmin := get bo uint32_t (desc_offset "intlmin") buf;
         leafmax := get bo uint32_t (desc_offset "leafmax") buf;
         leafmin := get bo uint32_t (desc_offset "leafmin") buf;
         recno_offset := get bo uint64_t (desc_offset "recno_offset") buf;
         root_addr := get bo uint32_t (desc_offset "root_addr") buf;
         root_size := get bo uint32_t (desc_offset "root_size") buf;
         records := get bo uint64_t (desc_offset "records") buf;
         free_addr := get bo uint32_t (desc_offset "free_addr") buf;
         free_size := get bo uint32_t (desc_offset "free_size") buf;
         flags := get bo uint32_t (desc_offset "flags") buf;
         fixed_len := get bo uint8_t (desc_offset "fixed_len") buf |} in
    if (magic d =? WT_BTREE_MAGIC) && (majorv d =? WT_BTREE_MAJOR_VERSION)
    then Some d else None.

(** Every member fits its C type. *)
Definition desc_in_range (d : WT_PAGE_DESC) : bool :=
  fits uint32_t (magic d) && fits uint16_t (majorv d) &&
  fits uint16_t (minorv d) &&
  fits uint32_t (intlmax d) && fits uint32_t (intlmin d) &&
  fits uint32_t (leafmax d) && fits uint32_t (leafmin d) &&
  fits uint64_t (recno_offset d) &&
  fits uint32_t (root_addr d) && fits uint32_t (root_size d) &&
  fits uint64_t (records d) &&
  fits uint32_t (free_addr d) && fits uint32_t (free_size d) &&
  fits uint32_t (flags d) && fits uint8_t (fixed_len d).

(** A descriptor the engine writes: every member fits its C type, and the
    magic number and major version are the engine's. *)
Definition desc_valid (d : WT_PAGE_DESC) : bool :=
  (magic d =? WT_BTREE_MAGIC) && (majorv d =? WT_BTREE_MAJOR_VERSION) &&
  desc_in_range d.

(* ===================================================================== *)
(** ** The life cycle of a page reference *)
(* ===================================================================== *)

(** Modelled from the spec: the reader, read-server and eviction-server code
    is not in this header, which declares [struct __wt_ref], the three state
    values and the protocol in its comment.  The model is one [WT_REF], the
    hazard slot of every reader, and the threads' steps interleaved one at a
    time (each step is one read or one write of shared memory, made visible
    in program order by the flushes the protocol prescribes). *)

(** Where a reader stands in "check the state field and if it's
    WT_REF_CACHE, set a hazard reference to the page, flush memory and
    re-confirm the state of the page". *)
Inductive reader_pc : Type :=
  | RIdle                    (* no hazard reference *)
  | RSawCache                (* read the state: it was WT_REF_CACHE *)
  | RPublished (hp : ptr)    (* hazard reference set, state not yet re-read *)
  | RHolding (hp : ptr).     (* state re-confirmed: the reference is live *)

Definition hazard_of (r : reader_pc) : option ptr :=
  match r with
  | RIdle | RSawCache => None
  | RPublished hp | RHolding hp => Some hp
  end.

(** Where the eviction server stands: idle, or it set the state to
    [WT_REF_EVICT] and has checked the hazard slots of the readers below
    [next]. *)
Inductive evict_pc : Type :=
  | EIdle
  | EScan (next : nat).

Record cache_sys := {
  ref : WT_REF;
  readers : list reader_pc;
  evictor : evict_pc
}.

(** The thread that takes the next step. *)
Inductive actor : Type :=
  | Reader (j : nat)
  | ReadServer (new_page : ptr)
  | EvictServer.

(** What the step did to the page. *)
Inductive event : Type :=
  | Quiet
  | Loaded (p : ptr)
  | Marked
  | Aborted
  | Reclaimed (p : ptr).

Definition set_reader (j : nat) (r : reader_pc) (s : cache_sys) : cache_sys :=
  {| ref := ref s; readers := <[j := r]> (readers s); evictor := evictor s |}.

Definition reader_step (j : nat) (s : cache_sys) : option (event * cache_sys) :=
  match readers s !! j with
  | None => None
  | Some RIdle =>
      if ref_state (ref s) =? WT_REF_CACHE
      then Some (Quiet, set_reader j RSawCache s)
      else Some (Quiet, s)
  | Some RSawCache =>
      Some (Quiet, set_reader j (RPublished (ref_page (ref s))) s)
  | Some (RPublished hp) =>
      if ref_state (ref s) =? WT_REF_CACHE
      then Some (Quiet, set_reader j (RHolding hp) s)
      else Some (Quiet, set_reader j RIdle s)
  | Some (RHolding hp) =>
      Some (Quiet, set_reader j RIdle s)
  end.

(** on-disk → in-cache: "the page-loader reads the child page, installs it,
    then publishes the state change". *)
Definition read_server_step (p : ptr) (s : cache_sys) : option (event * cache_sys) :=
  if (ref_state (ref s) =? WT_REF_DISK) && negb (p =? NULL)
  then Some (Loaded p,
             {| ref := {| ref_page := p; ref_state := WT_REF_CACHE |};
                readers := readers s; evictor := evictor s |})
  else None.

(** "It sets state to WT_EVICT, flushes memory, then checks hazard
    references.  If the eviction server finds a hazard reference, it resets
    the state to WT_CACHE ...  If the eviction server does not find a hazard
    reference, the page is then evicted", and the reference is reset to the
    zero state. *)
Definition evict_server_step (s : cache_sys) : option (event * cache_sys) :=
  match evictor s with
  | EIdle =>
      if ref_state (ref s) =? WT_REF_CACHE
      then Some (Marked,
                 {| ref := {| ref_page := ref_page (ref s); ref_state := WT_REF_EVICT |};
                    readers := readers s; evictor := EScan 0 |})
      else None
  | EScan i =>
      match readers s !! i with
      | Some r =>
          if bool_decide (hazard_of r = Some (ref_page (ref s)))
          then Some (Aborted,
                     {| ref := {| ref_page := ref_page (ref s); ref_state := WT_REF_CACHE |};
                        readers := readers s; evictor := EIdle |})
          else Some (Quiet,
                     {| ref := ref s; readers := readers s; evictor := EScan (S i) |})
      | None =>
          Some (Reclaimed (ref_page (ref s)),
                {| ref := {| ref_page := NULL; ref_state := WT_REF_DISK |};
                   readers := readers s; evictor := EIdle |})
      end
  end.

Definition exec (a : actor) (s : cache_sys) : option (event * cache_sys) :=
  match a with
  | Reader j => reader_step j s
  | ReadServer p => read_server_step p s
  | EvictServer => evict_server_step s
  end.

(** "If we forget to initialize a WT_REF structure ... we'll be in the
    correct default state": cleared memory, [n] readers, an idle evictor. *)
Definition cache_init (n : nat) : cache_sys :=
  {| ref := {| ref_page := NULL; ref_state := WT_REF_DISK |};
     readers := replicate n RIdle;
     evictor := EIdle |}.

Inductive step (s : cache_sys) (e : event) (s' : cache_sys) : Prop :=
  | step_exec (a : actor) : exec a s = Some (e, s') -> step s e s'.

Inductive reachable : cache_sys -> Prop :=
  | reach_init (n : nat) : reachable (cache_init n)
  | reach_step (s s' : cache_sys) (e : event) :
      reachable s -> step s e s' -> reachable s'.

(** Runs a schedule, collecting the events. *)
Fixpoint run (sched : list actor) (s : cache_sys) : option (list event * cache_sys) :=
  match sched with
  | [] => Some ([], s)
  | a :: sched' =>
      match exec a s with
      | None => None
      | Some (e, s1) =>
          match run sched' s1 with
          | None => None
          | Some (es, s2) => Some (e :: es, s2)
          end
      end
  end.

Definition scanning (s : cache_sys) : Prop :=
  match evictor s with EScan _ => True | EIdle => False end.

(** The steps taken while one eviction attempt is still undecided. *)
Inductive during_attempt : cache_sys -> cache_sys -> Prop :=
  | attempt_here (s : cache_sys) : scanning s -> during_attempt s s
  | attempt_more (s s1 s2 : cache_sys) (e : event) :
      during_attempt s s1 -> step s1 e s2 -> scanning s2 -> during_attempt s s2.

(** What every reachable state satisfies: the state field says whether an
    eviction attempt is under way, and no reader whose hazard slot the
    evictor has already passed holds a live reference to the page. *)
Definition cache_inv (s : cache_sys) : Prop :=
  match evictor s with
  | EIdle =>
      ref_state (ref s) = WT_REF_DISK \/ ref_state (ref s) = WT_REF_CACHE
  | EScan i =>
      ref_state (ref s) = WT_REF_EVICT /\
      forall (j : nat) (hp : ptr),
        (j < i)%nat -> readers s !! j = Some (RHolding hp) ->
        hp <> ref_page (ref s)
  end.

(* ===================================================================== *)
(** ** Sample values *)
(* ===================================================================== *)

(** A clean column-store page of three entries, never modified. *)
Definition sample_page : WT_PAGE :=
  {| page_addr := 7; page_size := 512; page_records := 0;
     parent := NULL; parent_off := NULL; dsk := 4096;
     read_gen := 1; disk_gen := 41; write_gen := 41;
     indx_count := 3; u_indx := 8192; u2 := None; u3 := U3_NULL |}.

(** The descriptor of a new file with the default page sizes, 512-byte
    allocation units and no root page yet. *)
Definition default_desc : WT_PAGE_DESC :=
  {| magic := WT_BTREE_MAGIC;
     majorv := WT_BTREE_MAJOR_VERSION;
     minorv := WT_BTREE_MINOR_VERSION;
     intlmax := WT_BTREE_INTLMAX_DEFAULT;
     intlmin := WT_BTREE_INTLMIN_DEFAULT;
     leafmax := WT_BTREE_LEAFMAX_DEFAULT;
     leafmin := WT_BTREE_LEAFMIN_DEFAULT;
     recno_offset := 0;
     root_addr := WT_ADDR_INVALID;
     root_size := 0;
     records := 0;
     free_addr := WT_ADDR_INVALID;
     free_size := 0;
     flags := 0;
     fixed_len := 0 |}.

(** One reader and the page at address 4096: the reader holds a live
    hazard reference, reached by the schedule below from cleared memory. *)
Definition holding_state : cache_sys :=
  {| ref := {| ref_page := 4096; ref_state := WT_REF_CACHE |};
     readers := [RHolding 4096];
     evictor := EIdle |}.

Definition holding_schedule : list actor :=
  [ReadServer 4096; Reader 0; Reader 0; Reader 0].

(** The evictor has passed every hazard slot of the page at 8192 and is
    about to reclaim it, while the reader's re-confirmed reference is to
    4096, the page that was in the cache before. *)
Definition stale_state : cache_sys :=
  {| ref := {| ref_page := 8192; ref_state := WT_REF_EVICT |};
     readers := [RHolding 4096];
     evictor := EScan 1 |}.

Definition stale_schedule : list actor :=
  [ReadServer 4096; Reader 0; EvictServer; EvictServer; Reader 0;
   EvictServer; ReadServer 8192; Reader 0; EvictServer; EvictServer].

(* ===================================================================== *)
(** ** The other on-disk structures *)
(* ===================================================================== *)

(** The members of [struct __wt_page_disk]; [u] is the union of [entries]
    and [datalen], both [uint32_t]. *)
Definition __wt_page_disk : list member :=
  [ scalar "start_recno" uint64_t;
    scalar "lsn_file" uint32_t;
    scalar "lsn_off" uint32_t;
    scalar "checksum" uint32_t;
    scalar "u" uint32_t;
    scalar "type" uint8_t;
    scalar "level" uint8_t;
    array "unused" uint8_t 2 ].

Definition WT_PAGE_DISK_SIZE : Z := 28.

Definition __wt_item : list member := [ scalar "__item_chunk" uint32_t ].

Definition __wt_off : list member :=
  [ scalar "addr" uint32_t; scalar "size" uint32_t ].
Definition WT_OFF_SIZE : Z := 8.

Definition __wt_off_record : list member :=
  [ scalar "addr" uint32_t; scalar "size" uint32_t;
    array "__record_chunk" uint32_t 2 ].
Definition WT_OFF_RECORD_SIZE : Z := 16.

Definition __wt_ovfl : list member :=
  [ scalar "addr" uint32_t; scalar "size" uint32_t ].
Definition WT_OVFL_SIZE : Z := 8.

(** The layout with no padding at all: every member right after the one
    before. *)
Fixpoint packed_from (off : Z) (ms : list member) : list (string * Z) * Z :=
  match ms with
  | [] => ([], off)
  | m :: ms' =>
      let r := packed_from (off + sizeof (m_type m) * m_count m) ms' in
      ((m_name m, off) :: fst r, snd r)
  end.

(** [struct __wt_off_record]: the record count is kept as two 32-bit words. *)
Record WT_OFF_RECORD := {
  offr_addr : Z;
  offr_size : Z;
  __record_chunk : Z * Z
}.

(** [#define WT_RECORDS(offp) ( *(uint64_t * )(&(offp)->__record_chunk[0]))]
    read: the eight bytes of the two words, taken as one 64-bit value. *)
Definition WT_RECORDS (bo : byte_order) (offp : WT_OFF_RECORD) : Z :=
  get bo uint64_t 0
    (put bo uint32_t (fst (__record_chunk offp)) ++
     put bo uint32_t (snd (__record_chunk offp))).

(** [WT_RECORDS(offp) = v]: the eight bytes of the value, stored over the
    two words. *)
Definition WT_RECORDS_SET (bo : byte_order) (v : Z) (offp : WT_OFF_RECORD)
    : WT_OFF_RECORD :=
  {| offr_addr := offr_addr offp;
     offr_size := offr_size offp;
     __record_chunk := (get bo uint32_t 0 (put bo uint64_t v),
                        get bo uint32_t 4 (put bo uint64_t v)) |}.

(** [#define WT_HDR_BYTES_TO_ALLOC(db, size)
        (WT_ALIGN((size) + sizeof(WT_PAGE_DISK), (db)->allocsize))]
    The macro takes [sizeof] of the structure, not [WT_PAGE_DISK_SIZE]. *)
Definition WT_HDR_BYTES_TO_ALLOC (db : DB) (size : Z) : Z :=
  WT_ALIGN (size + struct_sizeof __wt_page_disk) (allocsize db).

(* ===================================================================== *)
(** ** Walking a page *)
(* ===================================================================== *)

(** The bytes of the file around a page are a [list byte]; a pointer into
    them is the offset from their start.  A read that leaves the bytes is
    undefined. *)
Definition in_bounds (buf : list byte) (off n : Z) : bool :=
  (0 <=? off) && (0 <=? n) && (off + n <=? Z.of_nat (length buf)).

Definition load (bo : byte_order) (t : ctype) (buf : list byte) (off : Z)
    : option Z :=
  if in_bounds buf off (sizeof t) then Some (get bo t off buf) else None.

Definition load_bytes (buf : list byte) (off n : Z) : option (list byte) :=
  if in_bounds buf off n
  then Some (take (Z.to_nat n) (drop (Z.to_nat off) buf))
  else None.

(** [#define WT_PAGE_DISK_BYTE(dsk)
        ((void * )((uint8_t * )(dsk) + WT_PAGE_DISK_SIZE))] *)
Definition WT_PAGE_DISK_BYTE (dsk : ptr) : ptr := dsk + WT_PAGE_DISK_SIZE.

(** [dsk->u.entries], at the member's offset in the header. *)
Definition dsk_entries (bo : byte_order) (buf : list byte) (dsk : ptr)
    : option Z :=
  load bo uint32_t buf (dsk + default 0 (offsetof __wt_page_disk "u")).

(** [#define WT_ITEM_BYTE(addr) ((uint8_t * )(addr) + sizeof(WT_ITEM))] *)
Definition WT_ITEM_BYTE (addr : ptr) : ptr := addr + WT_ITEM_SIZE.

(** [#define WT_ITEM_SPACE_REQ(size)
        WT_ALIGN(sizeof(WT_ITEM) + (size), sizeof(uint32_t))] *)
Definition WT_ITEM_SPACE_REQ (size : Z) : Z :=
  WT_ALIGN (WT_ITEM_SIZE + size) (sizeof uint32_t).

(** The cell at an address. *)
Definition item_load (bo : byte_order) (buf : list byte) (item : ptr)
    : option WT_ITEM :=
  c ← load bo uint32_t buf item; Some {| __item_chunk := c |}.

(** [#define WT_ITEM_NEXT(item)
        ((WT_ITEM * )((uint8_t * )(item) + WT_ITEM_SPACE_REQ(WT_ITEM_LEN(item))))] *)
Definition WT_ITEM_NEXT (bo : byte_order) (buf : list byte) (item : ptr)
    : option ptr :=
  it ← item_load bo buf item; Some (item + WT_ITEM_SPACE_REQ (WT_ITEM_LEN it)).

(** [#define WT_ITEM_FOREACH(dsk, item, i)
        for ((item) = (WT_ITEM * )WT_PAGE_DISK_BYTE(dsk), (i) = dsk->u.entries;
            (i) > 0; (item) = WT_ITEM_NEXT(item), --(i))]
    The result lists the value of [item] at each run of the body. *)
Fixpoint item_foreach_from (bo : byte_order) (buf : list byte) (item : ptr)
    (i : nat) : option (list ptr) :=
  match i with
  | O => Some []
  | S k =>
      nxt ← WT_ITEM_NEXT bo buf item;
      rest ← item_foreach_from bo buf nxt k;
      Some (item :: rest)
  end.

Definition WT_ITEM_FOREACH (bo : byte_order) (buf : list byte) (dsk : ptr)
    : option (list ptr) :=
  n ← dsk_entries bo buf dsk;
  item_foreach_from bo buf (WT_PAGE_DISK_BYTE dsk) (Z.to_nat n).

(** What a loop body reads of an item: [WT_ITEM_TYPE], [WT_ITEM_LEN] and
    the [WT_ITEM_LEN] bytes at [WT_ITEM_BYTE]. *)
Definition item_read (bo : byte_order) (buf : list byte) (item : ptr)
    : option (Z * Z * list byte) :=
  it ← item_load bo buf item;
  data ← load_bytes buf (WT_ITEM_BYTE item) (WT_ITEM_LEN it);
  Some (WT_ITEM_TYPE it, WT_ITEM_LEN it, data).

(** An item as it lies on a page: the cell that [WT_ITEM_SET] stores, the
    data, and zero bytes up to [WT_ITEM_SPACE_REQ]. *)
Definition item_image (bo : byte_order) (it : item_type * list byte) : list byte :=
  let len := Z.of_nat (length (snd it)) in
  put bo uint32_t
    (__item_chunk (WT_ITEM_SET {| __item_chunk := 0 |} (item_type_code (fst it)) len))
  ++ snd it
  ++ replicate (Z.to_nat (WT_ITEM_SPACE_REQ len - WT_ITEM_SIZE - len)) Byte.x00.

Definition items_image (bo : byte_order) (items : list (item_type * list byte))
    : list byte :=
  concat (map (item_image bo) items).

(** [#define WT_FIX_FOREACH(db, dsk, p, i)
        for ((p) = WT_PAGE_DISK_BYTE(dsk), (i) = dsk->u.entries; (i) > 0;
            --(i), (p) = (uint8_t * )(p) + (db)->fixed_len)]
    [fixed_len] is the [db] handle's member of that name. *)
Fixpoint stride_from (stride : Z) (p : ptr) (i : nat) : list ptr :=
  match i with
  | O => []
  | S k => p :: stride_from stride (p + stride) k
  end.

Definition WT_FIX_FOREACH (bo : byte_order) (buf : list byte)
    (db_fixed_len : Z) (dsk : ptr) : option (list ptr) :=
  n ← dsk_entries bo buf dsk;
  Some (stride_from db_fixed_len (WT_PAGE_DISK_BYTE dsk) (Z.to_nat n)).

(** [#define WT_RLE_REPEAT_FOREACH(db, dsk, p, i)
        for ((p) = WT_PAGE_DISK_BYTE(dsk), (i) = dsk->u.entries; (i) > 0;
            --(i), (p) = (uint8_t * )(p) + (db)->fixed_len + sizeof(uint16_t))] *)
Definition WT_RLE_REPEAT_FOREACH (bo : byte_order) (buf : list byte)
    (db_fixed_len : Z) (dsk : ptr) : option (list ptr) :=
  n ← dsk_entries bo buf dsk;
  Some (stride_from (db_fixed_len + sizeof uint16_t)
          (WT_PAGE_DISK_BYTE dsk) (Z.to_nat n)).

(** [#define WT_RLE_REPEAT_COUNT(p) ( *(uint16_t * )(p))] *)
Definition WT_RLE_REPEAT_COUNT (bo : byte_order) (buf : list byte) (p : ptr)
    : option Z :=
  load bo uint16_t buf p.

(** [#define WT_RLE_REPEAT_DATA(p) ((uint8_t * )(p) + sizeof(uint16_t))] *)
Definition WT_RLE_REPEAT_DATA (p : ptr) : ptr := p + sizeof uint16_t.

(** [#define WT_RLE_REPEAT_ITERATE(db, dsk, p, i, j)
        WT_RLE_REPEAT_FOREACH(db, dsk, p, i)
            for ((j) = WT_RLE_REPEAT_COUNT(p); (j) > 0; --(j))]
    The result lists the value of [p] at each run of the body. *)
Fixpoint rle_iterate_over (bo : byte_order) (buf : list byte) (ps : list ptr)
    : option (list ptr) :=
  match ps with
  | [] => Some []
  | p :: ps' =>
      c ← WT_RLE_REPEAT_COUNT bo buf p;
      rest ← rle_iterate_over bo buf ps';
      Some (replicate (Z.to_nat c) p ++ rest)
  end.

Definition WT_RLE_REPEAT_ITERATE (bo : byte_order) (buf : list byte)
    (db_fixed_len : Z) (dsk : ptr) : option (list ptr) :=
  ps ← WT_RLE_REPEAT_FOREACH bo buf db_fixed_len dsk;
  rle_iterate_over bo buf ps.

(** A run as it lies on a page: the 16-bit count, then the data. *)
Definition run_image (bo : byte_order) (r : Z * list byte) : list byte :=
  put bo uint16_t (fst r) ++ snd r.

(** [#define WT_FIX_DELETE_BYTE 0x80]
    [#define WT_FIX_DELETE_ISSET(b) (((uint8_t * )(b))[0] & WT_FIX_DELETE_BYTE)]
    [#define WT_FIX_DELETE_SET(b) (((uint8_t * )(b))[0] = WT_FIX_DELETE_BYTE)] *)
Definition WT_FIX_DELETE_BYTE : Z := 0x80.

Definition WT_FIX_DELETE_ISSET (buf : list byte) (b : ptr) : option Z :=
  v ← load LittleEndian uint8_t buf b; Some (Z.land v WT_FIX_DELETE_BYTE).

Definition WT_FIX_DELETE_SET (buf : list byte) (b : ptr) : option (list byte) :=
  if in_bounds buf b 1
  then Some (<[Z.to_nat b := byte.of_Z WT_FIX_DELETE_BYTE]> buf)
  else None.

(* ===================================================================== *)
(** ** Walking the index and its parallel arrays *)
(* ===================================================================== *)

(** [#define WT_INDX_FOREACH(page, ip, i)
        for ((i) = (page)->indx_count, (ip) = (page)->u.indx; (i) > 0;
            ++(ip), --(i))]
    "works for both WT_ROW and WT_COL, based on the type of ip": [elem] is
    the size of what [ip] points to. *)
Definition WT_INDX_FOREACH (elem : Z) (page : WT_PAGE) : list ptr :=
  stride_from elem (u_indx page) (Z.to_nat (indx_count page)).

(** [#define WT_REPL_FOREACH(page, replp, i)
        for ((i) = (page)->indx_count, (replp) = (page)->u2.repl; (i) > 0;
            ++(replp), --(i))]
    The result lists [*replp] at each run of the body; a body that runs on
    a NULL array, or past the end of the array, reads what is not there. *)
Definition WT_REPL_FOREACH (page : WT_PAGE) : option (list ptr) :=
  match Z.to_nat (indx_count page), u2 page with
  | O, _ => Some []
  | S _, None => None
  | S k, Some a =>
      if decide (S k <= length a)%nat then Some (take (S k) a) else None
  end.

(* ===================================================================== *)
(** ** Schedules of the page reference's threads *)
(* ===================================================================== *)

Definition is_evict_server (a : actor) : bool :=
  match a with EvictServer => true | _ => false end.

(** The steps of the eviction server in a schedule. *)
Definition evict_steps (sched : list actor) : nat :=
  length (filter (fun a => is_evict_server a = true) sched).

(** The event that ends an eviction attempt, either way. *)
Definition decides (e : event) : Prop :=
  e = Aborted \/ exists p : ptr, e = Reclaimed p.

(* ===================================================================== *)
(** ** More sample values *)
(* ===================================================================== *)

(** A page header that counts [n] entries, its other members zero. *)
Definition header_of_entries (bo : byte_order) (n : Z) : list byte :=
  replicate 20 Byte.x00 ++ put bo uint32_t n ++ replicate 4 Byte.x00.

(** A row-store page of one key and one data item, on a little-endian
    host. *)
Definition sample_items : list (item_type * list byte) :=
  [ (ItemKey, [Byte.x61; Byte.x62; Byte.x63]); (ItemData, [Byte.x01]) ].

Definition sample_item_page : list byte :=
  [] ++ header_of_entries LittleEndian 2
     ++ items_image LittleEndian sample_items ++ [].

(** A run-length encoded page of one-byte records: three of 0x07, none of
    0x08, two of 0x09. *)
Definition sample_runs : list (Z * list byte) :=
  [ (3, [Byte.x07]); (0, [Byte.x08]); (2, [Byte.x09]) ].

Definition sample_rle_page : list byte :=
  [] ++ header_of_entries LittleEndian 3
     ++ concat (map (run_image LittleEndian) sample_runs) ++ [].

Definition sample_fix_entries : list (list byte) :=
  [ [Byte.x01; Byte.x02]; [Byte.x03; Byte.x04] ].

Definition sample_fix_page : list byte :=
  [] ++ header_of_entries LittleEndian 2 ++ concat sample_fix_entries ++ [].

(** A column-store page of three entries, the second one modified. *)
Definition modified_page : WT_PAGE :=
  {| page_addr := 7; page_size := 512; page_records := 0;
     parent := NULL; parent_off := NULL; dsk := 4096;
     read_gen := 1; disk_gen := 41; write_gen := 42;
     indx_count := 3; u_indx := 8192;
     u2 := Some [NULL; 12288; NULL]; u3 := U3_NULL |}.

(* ===================================================================== *)
(** * Theorems *)
(* ===================================================================== *)

(** ** Bit-level facts used by the item codec *)

Lemma land_low24_small (n : Z) :
  0 <= n <= WT_ITEM_MAX_LEN -> Z.land n 0x00ffffff = n.
Proof.
  intros Hn. change 0x00ffffff with (Z.ones 24).
  rewrite Z.land_ones by lia. apply Z.mod_small.
  unfold WT_ITEM_MAX_LEN in Hn. lia.
Qed.

Lemma land_type_mask_small (n : Z) :
  0 <= n <= WT_ITEM_MAX_LEN -> Z.land n 0x0f000000 = 0.
Proof.
  intros Hn. unfold WT_ITEM_MAX_LEN in Hn.
  change 0x0f000000 with (Z.shiftl (Z.ones 4) 24).
  apply Z.bits_inj'; intros i Hi.
  rewrite Z.land_spec, Z.testbit_0_l.
  destruct (Z.lt_ge_cases i 24) as [Hlo | Hhi].
  - rewrite Z.shiftl_spec_low by lia. apply andb_false_r.
  - rewrite <- (Z.mod_small n (2 ^ 24)) by lia.
    rewrite Z.mod_pow2_bits_high by lia. reflexivity.
Qed.

Lemma wrap32_land (z : Z) : wrap32 z = Z.land z (Z.ones 32).
Proof. unfold wrap32. now rewrite Z.land_ones by lia. Qed.

(** The two decoders applied to a freshly set cell, whatever the operands. *)
Lemma type_of_set (addr : WT_ITEM) (type size : Z) :
  WT_ITEM_TYPE (WT_ITEM_SET addr type size) =
  Z.lor (Z.land type 0x0f000000) (Z.land size 0x0f000000).
Proof.
  unfold WT_ITEM_TYPE, WT_ITEM_SET; cbn [__item_chunk].
  rewrite wrap32_land, <- Z.land_assoc.
  change (Z.land (Z.ones 32) 0x0f000000) with 0x0f000000.
  apply Z.land_lor_distr_l.
Qed.

Lemma len_of_set (addr : WT_ITEM) (type size : Z) :
  WT_ITEM_LEN (WT_ITEM_SET addr type size) =
  Z.lor (Z.land type 0x00ffffff) (Z.land size 0x00ffffff).
Proof.
  unfold WT_ITEM_LEN, WT_ITEM_SET; cbn [__item_chunk].
  rewrite wrap32_land, <- Z.land_assoc.
  change (Z.land (Z.ones 32) 0x00ffffff) with 0x00ffffff.
  apply Z.land_lor_distr_l.
Qed.

Lemma item_type_code_type_bits (t : item_type) :
  Z.land (item_type_code t) 0x0f000000 = item_type_code t.
Proof. destruct t; reflexivity. Qed.

Lemma item_type_code_len_bits (t : item_type) :
  Z.land (item_type_code t) 0x00ffffff = 0.
Proof. destruct t; reflexivity. Qed.

Lemma item_types_complete (t : item_type) : In t item_types.
Proof. destruct t; cbn; tauto. Qed.

Lemma item_types_count : length item_types = 11%nat.
Proof. reflexivity. Qed.

Lemma item_type_code_inj (t u : item_type) :
  item_type_code t = item_type_code u -> t = u.
Proof. destruct t, u; cbn; intros H; solve [reflexivity | discriminate H]. Qed.

(** The type tag is the type's position in the enumeration, shifted into
    bits 24-27. *)
Lemma item_type_code_shift (t : item_type) :
  exists k, 0 <= k <= 10 /\ item_type_code t = Z.shiftl k 24.
Proof.
  destruct t;
    [exists 0 | exists 1 | exists 2 | exists 3 | exists 4 | exists 5
    | exists 6 | exists 7 | exists 8 | exists 9 | exists 10];
    (split; [lia | reflexivity]).
Qed.

Lemma lor_below_pow2 (n a b : Z) :
  0 <= n -> 0 <= a < 2 ^ n -> 0 <= b < 2 ^ n -> 0 <= Z.lor a b < 2 ^ n.
Proof.
  intros Hn Ha Hb.
  assert (Heq : Z.lor a b = Z.lor a b mod 2 ^ n).
  { rewrite <- Z.land_ones, Z.land_lor_distr_l, !Z.land_ones by assumption.
    now rewrite !Z.mod_small by assumption. }
  rewrite Heq. apply Z.mod_pos_bound. lia.
Qed.

Lemma item_type_code_range (t : item_type) : 0 <= item_type_code t < 2 ^ 28.
Proof. destruct t; cbv; split; congruence. Qed.

(** C1.  Item cell round trip: for each of the 11 item types and every
    length from 0 to 16MB - 1, the type decoded from the cell that
    [WT_ITEM_SET] stores is the original type, and the length decoded from
    it is the original length. *)
Theorem item_codec_roundtrip (addr : WT_ITEM) (t : item_type) (len : Z) :
  0 <= len <= WT_ITEM_MAX_LEN ->
  WT_ITEM_TYPE (WT_ITEM_SET addr (item_type_code t) len) = item_type_code t /\
  WT_ITEM_LEN (WT_ITEM_SET addr (item_type_code t) len) = len.
Proof.
  intros Hlen. rewrite type_of_set, len_of_set.
  rewrite item_type_code_type_bits, item_type_code_len_bits.
  rewrite land_type_mask_small, land_low24_small by assumption.
  split; [apply Z.lor_0_r | apply Z.lor_0_l].
Qed.

Lemma item_codec_roundtrip_witness :
  WT_ITEM_TYPE (WT_ITEM_SET {| __item_chunk := 0 |}
                  (item_type_code ItemOffRecord) WT_ITEM_MAX_LEN)
    = item_type_code ItemOffRecord /\
  WT_ITEM_LEN (WT_ITEM_SET {| __item_chunk := 0 |}
                 (item_type_code ItemOffRecord) WT_ITEM_MAX_LEN)
    = WT_ITEM_MAX_LEN.
Proof.
  apply (item_codec_roundtrip {| __item_chunk := 0 |} ItemOffRecord WT_ITEM_MAX_LEN).
  unfold WT_ITEM_MAX_LEN. lia.
Defined.

(** Whatever the operands, the stored cell is a 32-bit value. *)
Lemma item_set_is_cell (addr : WT_ITEM) (type size : Z) :
  is_cell (WT_ITEM_SET addr type size).
Proof.
  unfold is_cell, WT_ITEM_SET, wrap32, UINT32_MAX; cbn [__item_chunk].
  pose proof (Z.mod_pos_bound (Z.lor type size) (2 ^ 32) ltac:(lia)). lia.
Qed.

Example item_set_off_record_max :
  WT_ITEM_SET {| __item_chunk := 0 |} WT_ITEM_OFF_RECORD WT_ITEM_MAX_LEN
  = {| __item_chunk := 0x0affffff |}.
Proof. reflexivity. Qed.

(** ** Encoding a length above the cap *)

(** The claim of C6 as it is written fails: [WT_ITEM_SET] with a key type
    and the length 16MB reports no error; it stores the cell 0x01000000. *)
Lemma item_encode_over_cap_no_error :
  ~ (forall (addr : WT_ITEM) (t : item_type) (len : Z),
        WT_ITEM_MAX_LEN < len ->
        item_encode addr (item_type_code t) len = SizeLimitError).
Proof.
  intros H.
  specialize (H {| __item_chunk := 0 |} ItemKey (WT_ITEM_MAX_LEN + 1)).
  discriminate H. unfold WT_ITEM_MAX_LEN. lia.
Qed.

Example item_encode_over_cap_cell :
  item_encode {| __item_chunk := 0 |} WT_ITEM_KEY (WT_ITEM_MAX_LEN + 1)
    = EncodedCell {| __item_chunk := 0x01000000 |} /\
  WT_ITEM_TYPE {| __item_chunk := 0x01000000 |} = WT_ITEM_KEY_OVFL /\
  WT_ITEM_LEN {| __item_chunk := 0x01000000 |} = 0.
Proof. repeat split. Qed.

(** C6, amended.  [WT_ITEM_SET] checks nothing: for every item type and
    every 32-bit length above 16MB - 1 it stores a cell and reports no
    error; the cell is [type | length], so the length decoded from it is the
    original reduced modulo 2^24 (never the original), and the bits of the
    length above bit 23 are or-ed into the decoded type. *)
Theorem item_encode_over_cap (addr : WT_ITEM) (t : item_type) (len : Z) :
  WT_ITEM_MAX_LEN < len <= UINT32_MAX ->
  item_encode addr (item_type_code t) len
    = EncodedCell {| __item_chunk := Z.lor (item_type_code t) len |} /\
  WT_ITEM_LEN (WT_ITEM_SET addr (item_type_code t) len) = len mod 2 ^ 24 /\
  WT_ITEM_LEN (WT_ITEM_SET addr (item_type_code t) len) <> len /\
  WT_ITEM_TYPE (WT_ITEM_SET addr (item_type_code t) len)
    = Z.lor (item_type_code t) (Z.land len 0x0f000000).
Proof.
  unfold WT_ITEM_MAX_LEN, UINT32_MAX. intros Hlen.
  assert (Hl : WT_ITEM_LEN (WT_ITEM_SET addr (item_type_code t) len) = len mod 2 ^ 24).
  { rewrite len_of_set, item_type_code_len_bits, Z.lor_0_l.
    change 0x00ffffff with (Z.ones 24). now rewrite Z.land_ones by lia. }
  repeat split.
  - unfold item_encode, WT_ITEM_SET, wrap32. do 2 f_equal.
    apply Z.mod_small, lor_below_pow2; [lia | | lia].
    pose proof (item_type_code_range t). lia.
  - exact Hl.
  - rewrite Hl. intros Heq.
    pose proof (Z.mod_pos_bound len (2 ^ 24) ltac:(lia)). lia.
  - now rewrite type_of_set, item_type_code_type_bits.
Qed.

Lemma item_encode_over_cap_witness :
  item_encode {| __item_chunk := 0 |} (item_type_code ItemData) 0x01000005
    = EncodedCell {| __item_chunk := Z.lor (item_type_code ItemData) 0x01000005 |} /\
  WT_ITEM_LEN (WT_ITEM_SET {| __item_chunk := 0 |} (item_type_code ItemData) 0x01000005)
    = 0x01000005 mod 2 ^ 24 /\
  WT_ITEM_LEN (WT_ITEM_SET {| __item_chunk := 0 |} (item_type_code ItemData) 0x01000005)
    <> 0x01000005 /\
  WT_ITEM_TYPE (WT_ITEM_SET {| __item_chunk := 0 |} (item_type_code ItemData) 0x01000005)
    = Z.lor (item_type_code ItemData) (Z.land 0x01000005 0x0f000000).
Proof.
  apply (item_encode_over_cap {| __item_chunk := 0 |} ItemData 0x01000005).
  unfold WT_ITEM_MAX_LEN, UINT32_MAX. lia.
Defined.

(** ** Updating one field of a cell *)

Lemma type_len_disjoint (x : Z) :
  Z.land (Z.land x 0x0f000000) 0x00ffffff = 0.
Proof. rewrite <- Z.land_assoc. apply Z.land_0_r. Qed.

Lemma len_type_disjoint (x : Z) :
  Z.land (Z.land x 0x00ffffff) 0x0f000000 = 0.
Proof. rewrite <- Z.land_assoc. apply Z.land_0_r. Qed.

Lemma land_idem_mask (x m : Z) : Z.land (Z.land x m) m = Z.land x m.
Proof. now rewrite <- Z.land_assoc, Z.land_diag. Qed.

(** The update of the length keeps the type field, the update of the type
    keeps the length field; nothing else of the old cell is left. *)
Lemma item_set_len_chunk (cell : WT_ITEM) (size : Z) :
  0 <= size <= WT_ITEM_MAX_LEN ->
  __item_chunk (WT_ITEM_SET_LEN cell size) = Z.lor (WT_ITEM_TYPE cell) size.
Proof.
  intros Hsize. unfold WT_ITEM_SET_LEN, WT_ITEM_SET, WT_ITEM_TYPE; cbn [__item_chunk].
  rewrite wrap32_land, Z.land_lor_distr_l, <- Z.land_assoc.
  change (Z.land 0x0f000000 (Z.ones 32)) with 0x0f000000.
  f_equal. rewrite Z.land_ones by lia. apply Z.mod_small.
  unfold WT_ITEM_MAX_LEN in Hsize. lia.
Qed.

Lemma item_set_type_chunk (cell : WT_ITEM) (t : item_type) :
  __item_chunk (WT_ITEM_SET_TYPE cell (item_type_code t))
  = Z.lor (item_type_code t) (WT_ITEM_LEN cell).
Proof.
  unfold WT_ITEM_SET_TYPE, WT_ITEM_SET, WT_ITEM_LEN; cbn [__item_chunk].
  rewrite wrap32_land, Z.land_lor_distr_l, <- Z.land_assoc.
  change (Z.land 0x00ffffff (Z.ones 32)) with 0x00ffffff.
  f_equal. rewrite <- (item_type_code_type_bits t), <- Z.land_assoc. reflexivity.
Qed.

(** The bits of the two masks. *)
Lemma type_mask_testbit (i : Z) :
  0 <= i -> Z.testbit 0x0f000000 i = (24 <=? i) && (i <? 28).
Proof.
  intros Hi. change 0x0f000000 with (Z.shiftl (Z.ones 4) 24).
  destruct (Z.leb_spec 24 i) as [Hhi | Hlo].
  - rewrite Z.shiftl_spec, Z.testbit_ones_nonneg by lia. cbn [andb].
    destruct (Z.ltb_spec (i - 24) 4), (Z.ltb_spec i 28); (reflexivity || lia).
  - now rewrite Z.shiftl_spec_low by lia.
Qed.

Lemma len_mask_testbit (i : Z) :
  0 <= i -> Z.testbit 0x00ffffff i = (i <? 24).
Proof.
  intros Hi. change 0x00ffffff with (Z.ones 24).
  apply Z.testbit_ones_nonneg; lia.
Qed.

Lemma small_testbit_high (x i : Z) :
  0 <= x < 2 ^ 24 -> 24 <= i -> Z.testbit x i = false.
Proof.
  intros Hx Hi. rewrite <- (Z.mod_small x (2 ^ 24)) by lia.
  apply Z.mod_pow2_bits_high. lia.
Qed.

(** C8.  For every cell, bit by bit: [WT_ITEM_SET_LEN] with a length up to
    the cap makes bits 0-23 the new length, leaves bits 24-27 as they were
    and clears the four unused bits 28-31, so the decoded type is as it was
    and the decoded length is the new one; [WT_ITEM_SET_TYPE] with one of
    the item types leaves bits 0-23 as they were, makes bits 24-27 the new
    type and clears bits 28-31, so the decoded length is as it was and the
    decoded type is the new one. *)
Theorem item_update_frame (cell : WT_ITEM) (size : Z) (t : item_type) :
  0 <= size <= WT_ITEM_MAX_LEN ->
  (forall i : Z, 0 <= i ->
     Z.testbit (__item_chunk (WT_ITEM_SET_LEN cell size)) i
     = if i <? 24 then Z.testbit size i
       else (i <? 28) && Z.testbit (__item_chunk cell) i) /\
  (forall i : Z, 0 <= i ->
     Z.testbit (__item_chunk (WT_ITEM_SET_TYPE cell (item_type_code t))) i
     = if i <? 24 then Z.testbit (__item_chunk cell) i
       else (i <? 28) && Z.testbit (item_type_code t) i) /\
  (WT_ITEM_TYPE (WT_ITEM_SET_LEN cell size) = WT_ITEM_TYPE cell /\
   WT_ITEM_LEN (WT_ITEM_SET_LEN cell size) = size) /\
  (WT_ITEM_LEN (WT_ITEM_SET_TYPE cell (item_type_code t)) = WT_ITEM_LEN cell /\
   WT_ITEM_TYPE (WT_ITEM_SET_TYPE cell (item_type_code t)) = item_type_code t).
Proof.
  intros Hsize. split; [|split].
  - intros i Hi. rewrite item_set_len_chunk by exact Hsize.
    unfold WT_ITEM_TYPE. rewrite Z.lor_spec, Z.land_spec, type_mask_testbit by exact Hi.
    destruct (Z.ltb_spec i 24) as [Hlo | Hhi].
    + rewrite (proj2 (Z.leb_gt 24 i)) by exact Hlo.
      now rewrite andb_false_l, andb_false_r.
    + rewrite (proj2 (Z.leb_le 24 i)) by exact Hhi.
      rewrite (small_testbit_high size i)
        by (unfold WT_ITEM_MAX_LEN in Hsize; lia).
      rewrite orb_false_r, andb_true_l. apply andb_comm.
  - intros i Hi. rewrite item_set_type_chunk.
    unfold WT_ITEM_LEN. rewrite Z.lor_spec, Z.land_spec, len_mask_testbit by exact Hi.
    rewrite <- (item_type_code_type_bits t) at 1.
    rewrite Z.land_spec, type_mask_testbit by exact Hi.
    destruct (Z.ltb_spec i 24) as [Hlo | Hhi].
    + rewrite (proj2 (Z.leb_gt 24 i)) by exact Hlo.
      now rewrite andb_false_l, andb_false_r, andb_true_r.
    + rewrite (proj2 (Z.leb_le 24 i)) by exact Hhi.
      rewrite andb_false_r, orb_false_r, andb_true_l. apply andb_comm.
  - unfold WT_ITEM_SET_LEN, WT_ITEM_SET_TYPE.
    rewrite !type_of_set, !len_of_set.
    unfold WT_ITEM_TYPE, WT_ITEM_LEN.
    rewrite !land_idem_mask, type_len_disjoint, len_type_disjoint.
    rewrite item_type_code_type_bits, item_type_code_len_bits.
    rewrite (land_type_mask_small size), (land_low24_small size) by assumption.
    rewrite !Z.lor_0_r, !Z.lor_0_l. auto.
Qed.

Lemma item_update_frame_witness :
  (forall i : Z, 0 <= i ->
     Z.testbit (__item_chunk (WT_ITEM_SET_LEN {| __item_chunk := 0xf5abcdef |} 77)) i
     = if i <? 24 then Z.testbit 77 i
       else (i <? 28) && Z.testbit (__item_chunk {| __item_chunk := 0xf5abcdef |}) i) /\
  (forall i : Z, 0 <= i ->
     Z.testbit (__item_chunk (WT_ITEM_SET_TYPE {| __item_chunk := 0xf5abcdef |}
                                (item_type_code ItemDel))) i
     = if i <? 24 then Z.testbit (__item_chunk {| __item_chunk := 0xf5abcdef |}) i
       else (i <? 28) && Z.testbit (item_type_code ItemDel) i) /\
  (WT_ITEM_TYPE (WT_ITEM_SET_LEN {| __item_chunk := 0xf5abcdef |} 77)
     = WT_ITEM_TYPE {| __item_chunk := 0xf5abcdef |} /\
   WT_ITEM_LEN (WT_ITEM_SET_LEN {| __item_chunk := 0xf5abcdef |} 77) = 77) /\
  (WT_ITEM_LEN (WT_ITEM_SET_TYPE {| __item_chunk := 0xf5abcdef |} (item_type_code ItemDel))
     = WT_ITEM_LEN {| __item_chunk := 0xf5abcdef |} /\
   WT_ITEM_TYPE (WT_ITEM_SET_TYPE {| __item_chunk := 0xf5abcdef |} (item_type_code ItemDel))
     = item_type_code ItemDel).
Proof.
  apply (item_update_frame {| __item_chunk := 0xf5abcdef |} 77 ItemDel).
  unfold WT_ITEM_MAX_LEN. lia.
Defined.

(** The claim of C8 as it is written fails: an update of the length does
    not leave every bit outside the length field as it was.  On the cell
    0xf5abcdef, [WT_ITEM_SET_LEN] with the cell's own length 0xabcdef gives
    0x05abcdef: bit 31 was set and is clear. *)
Lemma item_update_frame_changes_unused_bits :
  ~ (forall (cell : WT_ITEM) (size i : Z),
        0 <= __item_chunk cell <= UINT32_MAX ->
        0 <= size <= WT_ITEM_MAX_LEN ->
        24 <= i < 32 ->
        Z.testbit (__item_chunk (WT_ITEM_SET_LEN cell size)) i
        = Z.testbit (__item_chunk cell) i).
Proof.
  intros H.
  specialize (H {| __item_chunk := 0xf5abcdef |} 0xabcdef 31).
  discriminate H; unfold UINT32_MAX, WT_ITEM_MAX_LEN; cbn [__item_chunk]; lia.
Qed.

Example item_set_len_same_length :
  WT_ITEM_SET_LEN {| __item_chunk := 0xf5abcdef |}
    (WT_ITEM_LEN {| __item_chunk := 0xf5abcdef |})
  = {| __item_chunk := 0x05abcdef |}.
Proof. reflexivity. Qed.

Example item_set_len_clears_unused_bits :
  WT_ITEM_SET_LEN {| __item_chunk := 0xf5abcdef |} 77 = {| __item_chunk := 0x0500004d |}.
Proof. reflexivity. Qed.

(** ** Addresses and byte offsets *)

Lemma in_off_t_iff (z : Z) : in_off_t z = true <-> OFF_T_MIN <= z <= OFF_T_MAX.
Proof. unfold in_off_t. rewrite andb_true_iff, !Z.leb_le. tauto. Qed.

Lemma quot_in_off_t (a b : Z) :
  OFF_T_MIN <= a <= OFF_T_MAX -> 0 < b -> in_off_t (a ÷ b) = true.
Proof.
  intros Ha Hb. apply in_off_t_iff. unfold OFF_T_MIN, OFF_T_MAX in *.
  Z.to_euclidean_division_equations. nia.
Qed.

Lemma off_t_div_defined (a b : Z) :
  OFF_T_MIN <= a <= OFF_T_MAX -> 0 < b -> off_t_div a b = Some (a ÷ b).
Proof.
  intros Ha Hb. unfold off_t_div.
  rewrite (proj2 (Z.eqb_neq b 0)) by lia.
  now rewrite quot_in_off_t.
Qed.

(** C2.  Address/offset round trip: for every address below
    [WT_ADDR_INVALID] and every allocation unit from 512 bytes to 128MB,
    [WT_ADDR_TO_OFF] is defined (the product fits [off_t]) and is
    [addr * allocsize], and [WT_OFF_TO_ADDR] of that offset is the address. *)
Theorem addr_offset_roundtrip (db : DB) (a : Z) :
  0 <= a < WT_ADDR_INVALID ->
  WT_BTREE_ALLOCATION_SIZE <= allocsize db <= WT_BTREE_ALLOCATION_SIZE_MAX ->
  WT_ADDR_TO_OFF db a = Some (a * allocsize db) /\
  (WT_ADDR_TO_OFF db a ≫= WT_OFF_TO_ADDR db) = Some a.
Proof.
  unfold WT_ADDR_INVALID, UINT32_MAX, WT_BTREE_ALLOCATION_SIZE,
    WT_BTREE_ALLOCATION_SIZE_MAX, WT_MEGABYTE.
  intros Ha Hu.
  assert (Hprod : 0 <= a * allocsize db <= 4294967295 * 134217728) by nia.
  assert (Hto : WT_ADDR_TO_OFF db a = Some (a * allocsize db)).
  { unfold WT_ADDR_TO_OFF, off_t_mul.
    rewrite (proj2 (in_off_t_iff _)); [reflexivity|].
    unfold OFF_T_MIN, OFF_T_MAX. lia. }
  split; [exact Hto|]. rewrite Hto. cbn [mbind option_bind].
  unfold WT_OFF_TO_ADDR.
  rewrite off_t_div_defined by (unfold OFF_T_MIN, OFF_T_MAX; lia).
  cbn [mbind option_bind]. rewrite Z.quot_mul by lia.
  unfold wrap32. now rewrite Z.mod_small by lia.
Qed.

Lemma addr_offset_roundtrip_witness :
  WT_ADDR_TO_OFF {| allocsize := 134217728 |} 4294967294
    = Some (4294967294 * allocsize {| allocsize := 134217728 |}) /\
  (WT_ADDR_TO_OFF {| allocsize := 134217728 |} 4294967294
     ≫= WT_OFF_TO_ADDR {| allocsize := 134217728 |}) = Some 4294967294.
Proof.
  apply (addr_offset_roundtrip {| allocsize := 134217728 |} 4294967294).
  - unfold WT_ADDR_INVALID, UINT32_MAX. lia.
  - unfold WT_BTREE_ALLOCATION_SIZE, WT_BTREE_ALLOCATION_SIZE_MAX, WT_MEGABYTE.
    cbn [allocsize]. lia.
Defined.

(** C10.  [WT_OFF_TO_ADDR] validates nothing: for every [off_t] value and
    every non-zero allocation unit it is defined and is the C quotient
    reduced modulo 2^32; for a byte offset (not negative) that quotient is
    the offset divided by the allocation unit rounded down, whether or not
    the offset is aligned and whether or not the quotient fits 32 bits. *)
Theorem off_to_addr_unvalidated (db : DB) (off : Z) :
  0 < allocsize db <= UINT32_MAX ->
  OFF_T_MIN <= off <= OFF_T_MAX ->
  WT_OFF_TO_ADDR db off = Some ((off ÷ allocsize db) mod 2 ^ 32) /\
  (0 <= off ->
   WT_OFF_TO_ADDR db off = Some ((off / allocsize db) mod 2 ^ 32) /\
   allocsize db * (off / allocsize db) <= off
     < allocsize db * (off / allocsize db) + allocsize db).
Proof.
  intros Hu Hoff.
  assert (Hq : WT_OFF_TO_ADDR db off = Some ((off ÷ allocsize db) mod 2 ^ 32)).
  { unfold WT_OFF_TO_ADDR. rewrite off_t_div_defined by lia. reflexivity. }
  split; [exact Hq|]. intros Hnn.
  rewrite Hq, Z.quot_div_nonneg by lia. split; [reflexivity|].
  pose proof (Z.mul_div_le off (allocsize db) ltac:(lia)).
  pose proof (Z.mul_succ_div_gt off (allocsize db) ltac:(lia)). lia.
Qed.

Lemma off_to_addr_unvalidated_witness :
  WT_OFF_TO_ADDR {| allocsize := 512 |} 2199023256575 = Some 1 /\
  512 * (2199023256575 / 512) <= 2199023256575 < 512 * (2199023256575 / 512) + 512.
Proof.
  assert (Hu : 0 < allocsize {| allocsize := 512 |} <= UINT32_MAX).
  { unfold UINT32_MAX. cbn [allocsize]. lia. }
  assert (Ho : OFF_T_MIN <= 2199023256575 <= OFF_T_MAX).
  { unfold OFF_T_MIN, OFF_T_MAX. lia. }
  pose proof (proj2 (off_to_addr_unvalidated {| allocsize := 512 |} 2199023256575 Hu Ho))
    as Hfloor.
  destruct Hfloor as [Hq Hb]; [lia|].
  split; [exact Hq | exact Hb].
Defined.

(** An unaligned offset is rounded down; a quotient of 2^32 + 1 wraps to 1. *)
Example off_to_addr_unaligned : WT_OFF_TO_ADDR {| allocsize := 512 |} 1535 = Some 2.
Proof. reflexivity. Qed.

Example off_to_addr_wraps :
  WT_OFF_TO_ADDR {| allocsize := 512 |} 2199023256575 = Some 1.
Proof. reflexivity. Qed.

(** A negative [off_t] is truncated toward zero, then wraps. *)
Example off_to_addr_negative :
  WT_OFF_TO_ADDR {| allocsize := 512 |} (-1) = Some 0 /\
  WT_OFF_TO_ADDR {| allocsize := 512 |} (-512) = Some 4294967295.
Proof. split; reflexivity. Qed.

(** ** The write and disk generations *)

Lemma wrap32_succ_neq (w : Z) : wrap32 (w + 1) <> w.
Proof.
  unfold wrap32. intros H.
  pose proof (Z.mod_pos_bound (w + 1) (2 ^ 32) ltac:(lia)) as Hb.
  rewrite H in Hb.
  destruct (Z.eq_dec w (2 ^ 32 - 1)) as [-> | Hne].
  - vm_compute in H. discriminate H.
  - rewrite Z.mod_small in H by lia. lia.
Qed.

Lemma is_modified_iff (p : WT_PAGE) :
  WT_PAGE_IS_MODIFIED p = true <-> disk_gen p <> write_gen p.
Proof.
  unfold WT_PAGE_IS_MODIFIED. rewrite negb_true_iff. apply Z.eqb_neq.
Qed.

(** C4.  A page is dirty exactly when its disk generation differs from its
    write generation; right after [WT_PAGE_DISK_WRITE] the two are equal and
    the page is clean; a modification of that clean page
    ([WT_PAGE_SET_MODIFIED], the bump of the write generation) makes them
    differ, and the page is dirty again. *)
Theorem page_dirty_tracking (p : WT_PAGE) :
  (WT_PAGE_IS_MODIFIED p = true <-> disk_gen p <> write_gen p) /\
  disk_gen (WT_PAGE_DISK_WRITE p) = write_gen (WT_PAGE_DISK_WRITE p) /\
  WT_PAGE_IS_MODIFIED (WT_PAGE_DISK_WRITE p) = false /\
  disk_gen (WT_PAGE_SET_MODIFIED (WT_PAGE_DISK_WRITE p))
    <> write_gen (WT_PAGE_SET_MODIFIED (WT_PAGE_DISK_WRITE p)) /\
  WT_PAGE_IS_MODIFIED (WT_PAGE_SET_MODIFIED (WT_PAGE_DISK_WRITE p)) = true.
Proof.
  split; [apply is_modified_iff|].
  assert (Hne : disk_gen (WT_PAGE_SET_MODIFIED (WT_PAGE_DISK_WRITE p))
                <> write_gen (WT_PAGE_SET_MODIFIED (WT_PAGE_DISK_WRITE p))).
  { cbn. intros H. symmetry in H. exact (wrap32_succ_neq _ H). }
  repeat split.
  - unfold WT_PAGE_IS_MODIFIED; cbn. now rewrite Z.eqb_refl.
  - exact Hne.
  - now apply is_modified_iff.
Qed.

(** The write generation after [n] modifications. *)
Lemma modify_times_write_gen (n : nat) (p : WT_PAGE) :
  0 <= write_gen p <= UINT32_MAX ->
  write_gen (modify_times n p) = wrap32 (write_gen p + Z.of_nat n).
Proof.
  unfold UINT32_MAX. intros Hw. induction n as [|n IH].
  - cbn. unfold wrap32. rewrite Z.add_0_r, Z.mod_small; lia.
  - cbn [modify_times]. unfold WT_PAGE_SET_MODIFIED at 1. cbn [write_gen set_write_gen].
    rewrite IH. unfold wrap32. rewrite Z.add_mod_idemp_l by lia.
    f_equal. lia.
Qed.

Lemma modify_times_disk_gen (n : nat) (p : WT_PAGE) :
  disk_gen (modify_times n p) = disk_gen p.
Proof. induction n as [|n IH]; [reflexivity | exact IH]. Qed.

(** The page stays dirty through any run of fewer than 2^32 modifications
    after a write... *)
Lemma dirty_after_modifications (n : nat) (p : WT_PAGE) :
  0 <= write_gen p <= UINT32_MAX ->
  (0 < n)%nat -> Z.of_nat n < 2 ^ 32 ->
  WT_PAGE_IS_MODIFIED (modify_times n (WT_PAGE_DISK_WRITE p)) = true.
Proof.
  intros Hw Hn Hlt. apply is_modified_iff.
  rewrite modify_times_disk_gen, modify_times_write_gen by exact Hw.
  cbn [WT_PAGE_DISK_WRITE disk_gen write_gen set_disk_gen].
  unfold wrap32, UINT32_MAX in *. intros H.
  destruct (Z.lt_ge_cases (write_gen p + Z.of_nat n) (2 ^ 32)) as [Hs | Hb].
  - rewrite Z.mod_small in H by lia. lia.
  - replace (write_gen p + Z.of_nat n)
      with (write_gen p + Z.of_nat n - 2 ^ 32 + 1 * 2 ^ 32) in H by lia.
    rewrite Z.mod_add, Z.mod_small in H by lia. lia.
Qed.

(** ... and the 32-bit generation comes round after exactly 2^32 of them. *)
Lemma clean_after_wrap (p : WT_PAGE) :
  0 <= write_gen p <= UINT32_MAX ->
  WT_PAGE_IS_MODIFIED (modify_times (Z.to_nat (2 ^ 32)) (WT_PAGE_DISK_WRITE p)) = false.
Proof.
  intros Hw. unfold WT_PAGE_IS_MODIFIED.
  rewrite modify_times_disk_gen, modify_times_write_gen by exact Hw.
  cbn [WT_PAGE_DISK_WRITE disk_gen write_gen set_disk_gen].
  rewrite Z2Nat.id by lia. unfold wrap32, UINT32_MAX in *.
  replace (write_gen p + 2 ^ 32) with (write_gen p + 1 * 2 ^ 32) by lia.
  rewrite Z.mod_add, Z.mod_small by lia. now rewrite Z.eqb_refl.
Qed.

(** The root page is pinned by an out-of-band read generation. *)
Lemma pinned_after_pin (p : WT_PAGE) : WT_PAGE_IS_PINNED (WT_PAGE_SET_PIN p) = true.
Proof. reflexivity. Qed.

(** ** The generation check of the applier *)

(** C3.  When the applier processes a scheduled modification of a page
    (whose write generation is a [uint32_t]): if the generation recorded at
    search time is not the page's write generation, the result is
    [WT_RESTART] and the page, its write generation included, is unchanged;
    if it is, the result is success and the write generation has gone up by
    one (in 32-bit arithmetic: [UINT32_MAX] is followed by 0). *)
Theorem generation_check (recorded : Z) (slot : nat) (new : ptr) (page : WT_PAGE) :
  0 <= write_gen page <= UINT32_MAX ->
  (recorded <> write_gen page ->
   workq_apply recorded slot new page = (WT_RESTART, page) /\
   write_gen (snd (workq_apply recorded slot new page)) = write_gen page) /\
  (recorded = write_gen page ->
   fst (workq_apply recorded slot new page) = APPLY_OK /\
   write_gen (snd (workq_apply recorded slot new page)) = wrap32 (write_gen page + 1) /\
   write_gen (snd (workq_apply recorded slot new page)) <> write_gen page /\
   (write_gen page < UINT32_MAX ->
    write_gen (snd (workq_apply recorded slot new page)) = write_gen page + 1)).
Proof.
  unfold UINT32_MAX. intros Hw. unfold workq_apply. split.
  - intros Hne. rewrite (proj2 (Z.eqb_neq _ _)) by congruence. auto.
  - intros ->. rewrite Z.eqb_refl. cbn. repeat split.
    + apply wrap32_succ_neq.
    + intros Hlt. unfold wrap32. apply Z.mod_small. lia.
Qed.

Lemma generation_check_witness :
  (workq_apply 40 1 12288 sample_page = (WT_RESTART, sample_page) /\
   write_gen (snd (workq_apply 40 1 12288 sample_page)) = 41) /\
  (fst (workq_apply 41 1 12288 sample_page) = APPLY_OK /\
   write_gen (snd (workq_apply 41 1 12288 sample_page)) = 41 + 1).
Proof.
  assert (Hr : 0 <= write_gen sample_page <= UINT32_MAX).
  { unfold UINT32_MAX. cbn [write_gen sample_page]. lia. }
  split.
  - apply (proj1 (generation_check 40 1 12288 sample_page Hr)).
    cbn [write_gen sample_page]. lia.
  - pose proof (proj2 (generation_check 41 1 12288 sample_page Hr) eq_refl)
      as (Hok & _ & _ & Hinc).
    split; [exact Hok | apply Hinc].
    unfold UINT32_MAX. cbn [write_gen sample_page]. lia.
Defined.

Example apply_matching_generation :
  workq_apply 41 1 12288 sample_page =
  (APPLY_OK,
   {| page_addr := 7; page_size := 512; page_records := 0;
      parent := NULL; parent_off := NULL; dsk := 4096;
      read_gen := 1; disk_gen := 41; write_gen := 42;
      indx_count := 3; u_indx := 8192;
      u2 := Some [NULL; 12288; NULL]; u3 := U3_NULL |}).
Proof. reflexivity. Qed.

Example apply_stale_generation :
  workq_apply 40 1 12288 sample_page = (WT_RESTART, sample_page).
Proof. reflexivity. Qed.

(** A successful application to a page that was just written makes it dirty. *)
Lemma apply_after_write_dirty (slot : nat) (new : ptr) (page : WT_PAGE) :
  let clean := WT_PAGE_DISK_WRITE page in
  WT_PAGE_IS_MODIFIED
    (snd (workq_apply (write_gen clean) slot new clean)) = true.
Proof.
  cbn zeta. apply is_modified_iff. unfold workq_apply.
  rewrite Z.eqb_refl. cbn. intros H. symmetry in H.
  exact (wrap32_succ_neq _ H).
Qed.

(** ** Lookups in the parallel arrays *)

(** C9.  For every page and every index entry [ip]: while the [u2] slot is
    NULL (no modification or expansion array was ever allocated),
    [WT_COL_REPL], [WT_COL_RLEEXP] and [WT_ROW_REPL] evaluate to NULL, and
    while the [u3] slot is NULL, [WT_ROW_DUP] evaluates to NULL; the array
    is not indexed, so the lookup is defined whatever [ip] is. *)
Theorem overlay_lookup_unallocated (page : WT_PAGE) (ip : ptr) :
  (u2 page = None ->
   WT_COL_REPL page ip = Some NULL /\
   WT_COL_RLEEXP page ip = Some NULL /\
   WT_ROW_REPL page ip = Some NULL) /\
  (u3 page = U3_NULL ->
   WT_ROW_DUP page ip = Some NULL /\ WT_PAGE_DUP_TREES page = false).
Proof.
  split.
  - intros H2.
    unfold WT_COL_REPL, WT_COL_RLEEXP, WT_ROW_REPL, __WT_COL_ARRAY,
      __WT_ROW_ARRAY, u2_repl, u2_rleexp.
    rewrite H2. auto.
  - intros H3.
    unfold WT_ROW_DUP, WT_PAGE_DUP_TREES, __WT_ROW_ARRAY, u3_dup.
    rewrite H3. auto.
Qed.

Lemma overlay_lookup_unallocated_witness :
  (WT_COL_REPL sample_page (col_entry sample_page 2) = Some NULL /\
   WT_COL_RLEEXP sample_page (col_entry sample_page 2) = Some NULL /\
   WT_ROW_REPL sample_page (col_entry sample_page 2) = Some NULL) /\
  (WT_ROW_DUP sample_page (col_entry sample_page 2) = Some NULL /\
   WT_PAGE_DUP_TREES sample_page = false).
Proof.
  split.
  - apply (proj1 (overlay_lookup_unallocated sample_page (col_entry sample_page 2))).
    reflexivity.
  - apply (proj2 (overlay_lookup_unallocated sample_page (col_entry sample_page 2))).
    reflexivity.
Defined.

(** Once the array exists, the lookup of a valid entry is the array slot:
    the slot of entry [k] is [k]. *)
Lemma col_slot_of_entry (page : WT_PAGE) (k : Z) :
  0 <= k <= UINT32_MAX -> WT_COL_SLOT page (col_entry page k) = k.
Proof.
  unfold UINT32_MAX. intros Hk.
  unfold WT_COL_SLOT, col_entry, ptr_diff, WT_COL_SIZE, sizeof_pointer, wrap32.
  replace (u_indx page + k * 8 - u_indx page) with (k * 8) by lia.
  rewrite Z.quot_mul by lia. apply Z.mod_small. lia.
Qed.

Lemma row_slot_of_entry (page : WT_PAGE) (k : Z) :
  0 <= k <= UINT32_MAX -> WT_ROW_SLOT page (row_entry page k) = k.
Proof.
  unfold UINT32_MAX. intros Hk.
  unfold WT_ROW_SLOT, row_entry, ptr_diff, wrap32.
  change WT_ROW_SIZE with 24.
  replace (u_indx page + k * 24 - u_indx page) with (k * 24) by lia.
  rewrite Z.quot_mul by lia. apply Z.mod_small. lia.
Qed.

Lemma col_repl_allocated (page : WT_PAGE) (a : list ptr) (k : Z) :
  u2 page = Some a -> 0 <= k < Z.of_nat (length a) -> k <= UINT32_MAX ->
  WT_COL_REPL page (col_entry page k) = a !! Z.to_nat k /\
  is_Some (WT_COL_REPL page (col_entry page k)).
Proof.
  intros H2 Hk Hmax.
  assert (Hr : WT_COL_REPL page (col_entry page k) = a !! Z.to_nat k).
  { unfold WT_COL_REPL, __WT_COL_ARRAY, u2_repl. rewrite H2.
    rewrite col_slot_of_entry by lia. unfold array_read.
    now rewrite (proj2 (Z.ltb_ge k 0)) by lia. }
  split; [exact Hr|]. rewrite Hr. apply lookup_lt_is_Some. lia.
Qed.

(** The first modification allocates one empty slot per index entry and
    fills the modified one; the lookups then see it. *)
Example lookup_after_first_modification :
  let page := snd (workq_apply 41 1 12288 sample_page) in
  WT_COL_REPL sample_page (col_entry sample_page 1) = Some NULL /\
  WT_COL_REPL page (col_entry page 0) = Some NULL /\
  WT_COL_REPL page (col_entry page 1) = Some 12288 /\
  WT_COL_REPL page (col_entry page 2) = Some NULL /\
  WT_COL_REPL page (col_entry page 3) = None.
Proof. repeat split. Qed.

(** ** The file description structure *)

Lemma sizeof_pos (t : ctype) : 0 < sizeof t.
Proof. destruct t; reflexivity. Qed.

Lemma length_put (bo : byte_order) (t : ctype) (v : Z) :
  length (put bo t v) = Z.to_nat (sizeof t).
Proof.
  destruct bo; unfold put; rewrite ?length_rev; apply length_le_split.
Qed.

Lemma fits_iff (t : ctype) (v : Z) :
  fits t v = true <-> 0 <= v < 2 ^ (8 * sizeof t).
Proof. unfold fits. rewrite andb_true_iff, Z.leb_le, Z.ltb_lt. tauto. Qed.

(** A member read where it was written, whatever surrounds it. *)
Lemma get_put_here (bo : byte_order) (t : ctype) (v : Z) (rest : list byte) :
  get bo t 0 (put bo t v ++ rest) = v mod 2 ^ (8 * sizeof t).
Proof.
  unfold get. change (Z.to_nat 0) with 0%nat. rewrite drop_0.
  rewrite <- (length_put bo t v), take_app_length.
  destruct bo; unfold put; rewrite ?rev_involutive, le_combine_split;
    f_equal; f_equal; pose proof (sizeof_pos t); lia.
Qed.

Lemma get_skip (bo : byte_order) (t : ctype) (off : Z) (pre rest : list byte) :
  Z.of_nat (length pre) <= off ->
  get bo t off (pre ++ rest) = get bo t (off - Z.of_nat (length pre)) rest.
Proof.
  intros Hle. unfold get.
  rewrite drop_app_ge by lia.
  replace (Z.to_nat (off - Z.of_nat (length pre)))
    with (Z.to_nat off - length pre)%nat by lia.
  reflexivity.
Qed.

Lemma desc_layout :
  fst (layout_from 0 __wt_page_desc) =
  [ ("magic", 0); ("majorv", 4); ("minorv", 6); ("intlmax", 8);
    ("intlmin", 12); ("leafmax", 16); ("leafmin", 20);
    ("recno_offset", 24); ("root_addr", 32); ("root_size", 36);
    ("records", 40); ("free_addr", 48); ("free_size", 52); ("flags", 56);
    ("fixed_len", 60); ("unused1", 61); ("unused2", 64) ]%string.
Proof. reflexivity. Qed.

Lemma desc_sizeof : struct_sizeof __wt_page_desc = WT_PAGE_DESC_SIZE.
Proof. reflexivity. Qed.

Lemma desc_encode_length (bo : byte_order) (d : WT_PAGE_DESC) :
  Z.of_nat (length (desc_encode bo d)) = WT_PAGE_DESC_SIZE.
Proof.
  unfold desc_encode. rewrite !length_app, !length_put, !length_replicate.
  reflexivity.
Qed.

Lemma get_skip_put (bo : byte_order) (t t' : ctype) (off v : Z) (rest : list byte) :
  sizeof t' <= off ->
  get bo t off (put bo t' v ++ rest) = get bo t (off - sizeof t') rest.
Proof.
  intros Hle. pose proof (sizeof_pos t').
  rewrite get_skip; rewrite length_put; [f_equal|]; lia.
Qed.

(** Walks to the member at a literal offset of the encoded descriptor. *)
Ltac skip_member :=
  match goal with
  | |- context [get ?bo ?t ?off (put ?bo ?t' ?v ++ ?rest)] =>
      let o := eval cbv in (off - sizeof t') in
      rewrite (get_skip_put bo t t' off v rest) by (cbn [sizeof]; lia);
      change (off - sizeof t') with o
  end.

Ltac read_member :=
  unfold desc_encode; repeat skip_member;
  rewrite get_put_here; apply Z.mod_small; apply fits_iff; assumption.

Lemma desc_in_range_fits (d : WT_PAGE_DESC) :
  desc_in_range d = true ->
  fits uint32_t (magic d) = true /\ fits uint16_t (majorv d) = true /\
  fits uint16_t (minorv d) = true /\
  fits uint32_t (intlmax d) = true /\ fits uint32_t (intlmin d) = true /\
  fits uint32_t (leafmax d) = true /\ fits uint32_t (leafmin d) = true /\
  fits uint64_t (recno_offset d) = true /\
  fits uint32_t (root_addr d) = true /\ fits uint32_t (root_size d) = true /\
  fits uint64_t (records d) = true /\
  fits uint32_t (free_addr d) = true /\ fits uint32_t (free_size d) = true /\
  fits uint32_t (flags d) = true /\ fits uint8_t (fixed_len d) = true.
Proof.
  unfold desc_in_range. rewrite !andb_true_iff. tauto.
Qed.

Lemma desc_valid_inv (d : WT_PAGE_DESC) :
  desc_valid d = true ->
  magic d = WT_BTREE_MAGIC /\ majorv d = WT_BTREE_MAJOR_VERSION /\
  desc_in_range d = true.
Proof.
  unfold desc_valid. rewrite !andb_true_iff, !Z.eqb_eq. tauto.
Qed.

Lemma desc_members_read (bo : byte_order) (d : WT_PAGE_DESC) :
  desc_in_range d = true ->
  get bo uint32_t 0 (desc_encode bo d) = magic d /\
  get bo uint16_t 4 (desc_encode bo d) = majorv d /\
  get bo uint16_t 6 (desc_encode bo d) = minorv d /\
  get bo uint32_t 8 (desc_encode bo d) = intlmax d /\
  get bo uint32_t 12 (desc_encode bo d) = intlmin d /\
  get bo uint32_t 16 (desc_encode bo d) = leafmax d /\
  get bo uint32_t 20 (desc_encode bo d) = leafmin d /\
  get bo uint64_t 24 (desc_encode bo d) = recno_offset d /\
  get bo uint32_t 32 (desc_encode bo d) = root_addr d /\
  get bo uint32_t 36 (desc_encode bo d) = root_size d /\
  get bo uint64_t 40 (desc_encode bo d) = records d /\
  get bo uint32_t 48 (desc_encode bo d) = free_addr d /\
  get bo uint32_t 52 (desc_encode bo d) = free_size d /\
  get bo uint32_t 56 (desc_encode bo d) = flags d /\
  get bo uint8_t 60 (desc_encode bo d) = fixed_len d.
Proof.
  intros Hv.
  destruct (desc_in_range_fits d Hv)
    as (? & ? & ? & ? & ? & ? & ? & ? & ? & ? & ? & ? & ? & ? & ?).
  repeat split; read_member.
Qed.

(** What the decoder does with an encoded descriptor, before its check of
    the magic number and major version. *)
Lemma desc_decode_encode (bo : byte_order) (d : WT_PAGE_DESC) :
  desc_in_range d = true ->
  desc_decode bo (desc_encode bo d) =
  if (magic d =? WT_BTREE_MAGIC) && (majorv d =? WT_BTREE_MAJOR_VERSION)
  then Some d else None.
Proof.
  intros Hr.
  destruct (desc_members_read bo d Hr)
    as (H0 & H4 & H6 & H8 & H12 & H16 & H20 & H24 & H32 & H36 & H40 & H48
        & H52 & H56 & H60).
  unfold desc_decode. rewrite desc_encode_length.
  change (WT_PAGE_DESC_SIZE <? WT_PAGE_DESC_SIZE) with false. cbv iota.
  change (desc_offset "magic") with 0.
  change (desc_offset "majorv") with 4.
  change (desc_offset "minorv") with 6.
  change (desc_offset "intlmax") with 8.
  change (desc_offset "intlmin") with 12.
  change (desc_offset "leafmax") with 16.
  change (desc_offset "leafmin") with 20.
  change (desc_offset "recno_offset") with 24.
  change (desc_offset "root_addr") with 32.
  change (desc_offset "root_size") with 36.
  change (desc_offset "records") with 40.
  change (desc_offset "free_addr") with 48.
  change (desc_offset "free_size") with 52.
  change (desc_offset "flags") with 56.
  change (desc_offset "fixed_len") with 60.
  cbv zeta. cbn [magic majorv].
  rewrite H0, H4, H6, H8, H12, H16, H20, H24, H32, H36, H40, H48, H52, H56, H60.
  destruct d; reflexivity.
Qed.

(** C7.  The file descriptor is 512 bytes, its members lie at the offsets
    magic 0, majorv 4, minorv 6, intlmax 8, intlmin 12, leafmax 16,
    leafmin 20, recno_offset 24, root_addr 32, root_size 36, records 40,
    free_addr 48, free_size 52, flags 56, fixed_len 60 (both as the
    compiler lays the structure out and in the encoded bytes), and decoding
    the encoding of a valid descriptor returns it, in either byte order. *)
Theorem file_descriptor_layout (bo : byte_order) (d : WT_PAGE_DESC) :
  desc_valid d = true ->
  struct_sizeof __wt_page_desc = 512 /\
  Z.of_nat (length (desc_encode bo d)) = 512 /\
  fst (layout_from 0 __wt_page_desc) =
    [ ("magic", 0); ("majorv", 4); ("minorv", 6); ("intlmax", 8);
      ("intlmin", 12); ("leafmax", 16); ("leafmin", 20);
      ("recno_offset", 24); ("root_addr", 32); ("root_size", 36);
      ("records", 40); ("free_addr", 48); ("free_size", 52); ("flags", 56);
      ("fixed_len", 60); ("unused1", 61); ("unused2", 64) ]%string /\
  (get bo uint32_t 0 (desc_encode bo d) = magic d /\
   get bo uint16_t 4 (desc_encode bo d) = majorv d /\
   get bo uint16_t 6 (desc_encode bo d) = minorv d /\
   get bo uint32_t 8 (desc_encode bo d) = intlmax d /\
   get bo uint32_t 12 (desc_encode bo d) = intlmin d /\
   get bo uint32_t 16 (desc_encode bo d) = leafmax d /\
   get bo uint32_t 20 (desc_encode bo d) = leafmin d /\
   get bo uint64_t 24 (desc_encode bo d) = recno_offset d /\
   get bo uint32_t 32 (desc_encode bo d) = root_addr d /\
   get bo uint32_t 36 (desc_encode bo d) = root_size d /\
   get bo uint64_t 40 (desc_encode bo d) = records d /\
   get bo uint32_t 48 (desc_encode bo d) = free_addr d /\
   get bo uint32_t 52 (desc_encode bo d) = free_size d /\
   get bo uint32_t 56 (desc_encode bo d) = flags d /\
   get bo uint8_t 60 (desc_encode bo d) = fixed_len d) /\
  desc_decode bo (desc_encode bo d) = Some d.
Proof.
  intros Hv. destruct (desc_valid_inv d Hv) as (Hm & Hj & Hr).
  split; [exact desc_sizeof|].
  split; [exact (desc_encode_length bo d)|].
  split; [exact desc_layout|].
  split; [exact (desc_members_read bo d Hr)|].
  rewrite desc_decode_encode by exact Hr.
  now rewrite (proj2 (Z.eqb_eq _ _) Hm), (proj2 (Z.eqb_eq _ _) Hj).
Qed.

Lemma file_descriptor_layout_witness :
  Z.of_nat (length (desc_encode LittleEndian default_desc)) = 512 /\
  get LittleEndian uint32_t 16 (desc_encode LittleEndian default_desc) = 1048576 /\
  desc_decode LittleEndian (desc_encode LittleEndian default_desc) = Some default_desc.
Proof.
  assert (Hv : desc_valid default_desc = true) by reflexivity.
  pose proof (file_descriptor_layout LittleEndian default_desc Hv)
    as (_ & Hlen & _ & Hmem & Hdec).
  split; [exact Hlen|]. split; [|exact Hdec].
  exact (proj1 (proj2 (proj2 (proj2 (proj2 (proj2 Hmem)))))).
Defined.

(** The decoder rejects a descriptor of another magic number or major
    version. *)
Lemma desc_decode_rejects (bo : byte_order) (d : WT_PAGE_DESC) :
  desc_in_range d = true ->
  magic d <> WT_BTREE_MAGIC \/ majorv d <> WT_BTREE_MAJOR_VERSION ->
  desc_decode bo (desc_encode bo d) = None.
Proof.
  intros Hr Hbad. rewrite desc_decode_encode by exact Hr.
  destruct Hbad as [Hm | Hj].
  - now rewrite (proj2 (Z.eqb_neq _ _) Hm).
  - rewrite (proj2 (Z.eqb_neq (majorv d) _) Hj). now rewrite andb_false_r.
Qed.

(** The first eight bytes of the default descriptor on a little-endian
    host: magic 120897 = 0x0001d841, major version 0, minor version 1. *)
Example default_desc_prefix :
  take 8 (desc_encode LittleEndian default_desc) =
  [Byte.x41; Byte.xd8; Byte.x01; Byte.x00; Byte.x00; Byte.x00; Byte.x01; Byte.x00].
Proof. vm_compute. reflexivity. Qed.

(** The layout pads: an 8-byte member that follows a single byte is moved
    to the next 8-byte boundary. *)
Example layout_pads_misaligned_member :
  fst (layout_from 0 [scalar "fixed_len" uint8_t; scalar "recno_offset" uint64_t])
  = [("fixed_len", 0); ("recno_offset", 8)]%string.
Proof. reflexivity. Qed.

(** ** The life cycle of a page reference *)

Lemma cache_inv_init (n : nat) : cache_inv (cache_init n).
Proof. left. reflexivity. Qed.

Lemma set_reader_lookup (j k : nat) (r r0 : reader_pc) (s : cache_sys) :
  readers s !! j = Some r0 ->
  readers (set_reader j r s) !! k = if decide (j = k) then Some r else readers s !! k.
Proof.
  intros Hj. cbn [set_reader readers]. destruct (decide (j = k)) as [<- | Hne].
  - apply list_lookup_insert_eq. eapply lookup_lt_Some, Hj.
  - now apply list_lookup_insert_ne.
Qed.

(** A reader step that does not end in a live reference keeps the invariant;
    the one that does needs the state to be [WT_REF_CACHE]. *)
Lemma cache_inv_set_reader (j : nat) (r r0 : reader_pc) (s : cache_sys) :
  readers s !! j = Some r0 ->
  (forall hp, r = RHolding hp -> ref_state (ref s) = WT_REF_CACHE) ->
  cache_inv s -> cache_inv (set_reader j r s).
Proof.
  intros Hj Hr. unfold cache_inv. cbn [set_reader evictor ref].
  destruct (evictor s) as [|i]; [auto|].
  intros [Hst Hscan]. split; [exact Hst|].
  intros k hp Hk Hlook.
  change (<[j:=r]> (readers s)) with (readers (set_reader j r s)) in Hlook.
  rewrite (set_reader_lookup j k r r0 s Hj) in Hlook.
  destruct (decide (j = k)) as [<- | Hne].
  - injection Hlook as ->. specialize (Hr hp eq_refl).
    rewrite Hst in Hr. discriminate Hr.
  - eapply Hscan; eassumption.
Qed.

Lemma cache_inv_step (s s' : cache_sys) (e : event) :
  cache_inv s -> step s e s' -> cache_inv s'.
Proof.
  intros Hinv [a Hexec]. destruct a as [j | p |]; cbn [exec] in Hexec.
  - (* a reader *)
    unfold reader_step in Hexec.
    destruct (readers s !! j) as [r0|] eqn:Hj; [|discriminate Hexec].
    destruct r0 as [| | hp | hp].
    + destruct (ref_state (ref s) =? WT_REF_CACHE);
        injection Hexec as <- <-; [|exact Hinv].
      eapply cache_inv_set_reader; eauto. intros hp [=].
    + injection Hexec as <- <-.
      eapply cache_inv_set_reader; eauto. intros hp [=].
    + destruct (ref_state (ref s) =? WT_REF_CACHE) eqn:Hst;
        injection Hexec as <- <-.
      * eapply cache_inv_set_reader; eauto. intros _ _. now apply Z.eqb_eq.
      * eapply cache_inv_set_reader; eauto. intros hp' [=].
    + injection Hexec as <- <-.
      eapply cache_inv_set_reader; eauto. intros hp' [=].
  - (* the read server *)
    unfold read_server_step in Hexec.
    destruct (ref_state (ref s) =? WT_REF_DISK) eqn:Hst; [|discriminate Hexec].
    destruct (negb (p =? NULL)); [|discriminate Hexec].
    injection Hexec as <- <-. apply Z.eqb_eq in Hst.
    unfold cache_inv in *. cbn [evictor ref ref_state].
    destruct (evictor s) as [|i]; [now right|].
    destruct Hinv as [Hev _]. rewrite Hev in Hst. discriminate Hst.
  - (* the eviction server *)
    unfold evict_server_step in Hexec. unfold cache_inv in Hinv.
    destruct (evictor s) as [|i] eqn:Hev.
    + destruct (ref_state (ref s) =? WT_REF_CACHE); [|discriminate Hexec].
      injection Hexec as <- <-. split; [reflexivity|]. intros j hp Hj. lia.
    + destruct Hinv as [Hst Hscan].
      destruct (readers s !! i) as [r|] eqn:Hi.
      * destruct (bool_decide (hazard_of r = Some (ref_page (ref s)))) eqn:Hhz;
          injection Hexec as <- <-.
        -- right. reflexivity.
        -- split; [exact Hst|]. cbn [readers ref]. intros j hp Hj Hlook.
           destruct (decide (j = i)) as [-> | Hne].
           ++ rewrite Hi in Hlook. injection Hlook as ->.
              apply bool_decide_eq_false in Hhz. cbn in Hhz. congruence.
           ++ apply (Hscan j hp); [lia | exact Hlook].
      * injection Hexec as <- <-. left. reflexivity.
Qed.

Lemma reachable_inv (s : cache_sys) : reachable s -> cache_inv s.
Proof.
  induction 1 as [n | s s' e _ IH Hstep].
  - apply cache_inv_init.
  - eapply cache_inv_step; eassumption.
Qed.

Lemma run_reachable (sched : list actor) (s s' : cache_sys) (es : list event) :
  reachable s -> run sched s = Some (es, s') -> reachable s'.
Proof.
  revert s es. induction sched as [|a sched IH]; intros s es Hs Hrun.
  - injection Hrun as _ <-. exact Hs.
  - cbn [run] in Hrun.
    destruct (exec a s) as [[e s1]|] eqn:Hexec; [|discriminate Hrun].
    destruct (run sched s1) as [[es' s2]|] eqn:Hrest; [|discriminate Hrun].
    injection Hrun as _ <-.
    apply (IH s1 es'); [|exact Hrest].
    eapply reach_step; [exact Hs | exact (step_exec s e s1 a Hexec)].
Qed.

(** The steps that reclaim, mark and abort, read back from their events. *)
Lemma step_reclaimed_inv (s s' : cache_sys) (p : ptr) :
  step s (Reclaimed p) s' ->
  exists i, evictor s = EScan i /\ readers s !! i = None /\
            p = ref_page (ref s) /\
            s' = {| ref := {| ref_page := NULL; ref_state := WT_REF_DISK |};
                    readers := readers s; evictor := EIdle |}.
Proof.
  intros [a Hexec]. destruct a as [j | q |]; cbn [exec] in Hexec.
  - unfold reader_step in Hexec.
    destruct (readers s !! j) as [[| | hp | hp]|];
      try destruct (ref_state (ref s) =? WT_REF_CACHE); discriminate Hexec.
  - unfold read_server_step in Hexec.
    destruct ((ref_state (ref s) =? WT_REF_DISK) && negb (q =? NULL));
      discriminate Hexec.
  - unfold evict_server_step in Hexec.
    destruct (evictor s) as [|i].
    + destruct (ref_state (ref s) =? WT_REF_CACHE); discriminate Hexec.
    + destruct (readers s !! i) as [r|] eqn:Hi.
      * destruct (bool_decide (hazard_of r = Some (ref_page (ref s))));
          discriminate Hexec.
      * injection Hexec as <- <-. exists i. auto.
Qed.

Lemma step_marked_inv (s s' : cache_sys) :
  step s Marked s' ->
  ref_state (ref s) = WT_REF_CACHE /\
  s' = {| ref := {| ref_page := ref_page (ref s); ref_state := WT_REF_EVICT |};
          readers := readers s; evictor := EScan 0 |}.
Proof.
  intros [a Hexec]. destruct a as [j | q |]; cbn [exec] in Hexec.
  - unfold reader_step in Hexec.
    destruct (readers s !! j) as [[| | hp | hp]|];
      try destruct (ref_state (ref s) =? WT_REF_CACHE); discriminate Hexec.
  - unfold read_server_step in Hexec.
    destruct ((ref_state (ref s) =? WT_REF_DISK) && negb (q =? NULL));
      discriminate Hexec.
  - unfold evict_server_step in Hexec.
    destruct (evictor s) as [|i].
    + destruct (ref_state (ref s) =? WT_REF_CACHE) eqn:Hst; [|discriminate Hexec].
      injection Hexec as <-. apply Z.eqb_eq in Hst. auto.
    + destruct (readers s !! i) as [r|];
        [destruct (bool_decide (hazard_of r = Some (ref_page (ref s))))|];
        discriminate Hexec.
Qed.

Lemma step_aborted_inv (s s' : cache_sys) :
  step s Aborted s' ->
  exists i r, evictor s = EScan i /\ readers s !! i = Some r /\
              hazard_of r = Some (ref_page (ref s)) /\
              s' = {| ref := {| ref_page := ref_page (ref s); ref_state := WT_REF_CACHE |};
                      readers := readers s; evictor := EIdle |}.
Proof.
  intros [a Hexec]. destruct a as [j | q |]; cbn [exec] in Hexec.
  - unfold reader_step in Hexec.
    destruct (readers s !! j) as [[| | hp | hp]|];
      try destruct (ref_state (ref s) =? WT_REF_CACHE); discriminate Hexec.
  - unfold read_server_step in Hexec.
    destruct ((ref_state (ref s) =? WT_REF_DISK) && negb (q =? NULL));
      discriminate Hexec.
  - unfold evict_server_step in Hexec.
    destruct (evictor s) as [|i].
    + destruct (ref_state (ref s) =? WT_REF_CACHE); discriminate Hexec.
    + destruct (readers s !! i) as [r|] eqn:Hi; [|discriminate Hexec].
      destruct (bool_decide (hazard_of r = Some (ref_page (ref s)))) eqn:Hhz;
        [|discriminate Hexec].
      injection Hexec as <-. apply bool_decide_eq_true in Hhz.
      exists i, r. auto.
Qed.

(** While an attempt is undecided nobody writes the reference. *)
Lemma step_scanning_ref (s s' : cache_sys) (e : event) :
  cache_inv s -> scanning s -> step s e s' -> scanning s' -> ref s' = ref s.
Proof.
  unfold scanning. intros Hinv Hsc [a Hexec] Hsc'.
  destruct (evictor s) as [|i] eqn:Hev; [contradiction|].
  unfold cache_inv in Hinv. rewrite Hev in Hinv. destruct Hinv as [Hst _].
  destruct a as [j | q |]; cbn [exec] in Hexec.
  - unfold reader_step in Hexec.
    destruct (readers s !! j) as [[| | hp | hp]|];
      try destruct (ref_state (ref s) =? WT_REF_CACHE);
      try discriminate Hexec; injection Hexec as <- <-; reflexivity.
  - unfold read_server_step in Hexec. rewrite Hst in Hexec. discriminate Hexec.
  - unfold evict_server_step in Hexec. rewrite Hev in Hexec.
    destruct (readers s !! i) as [r|].
    + destruct (bool_decide (hazard_of r = Some (ref_page (ref s))));
        injection Hexec as <- <-; [contradiction | reflexivity].
    + injection Hexec as <- <-. contradiction.
Qed.

Lemma during_attempt_ref (s s' : cache_sys) :
  reachable s -> during_attempt s s' ->
  reachable s' /\ scanning s' /\ ref s' = ref s.
Proof.
  intros Hs Hatt. induction Hatt as [s Hsc | s s1 s2 e _ IH Hstep Hsc2].
  - auto.
  - destruct (IH Hs) as (Hr1 & Hsc1 & Href1).
    split; [eapply reach_step; eassumption|]. split; [exact Hsc2|].
    rewrite <- Href1.
    eapply step_scanning_ref; eauto using reachable_inv.
Qed.

(** C5.  In every reachable state of the reference's life cycle: a step
    that reclaims the page finds no reader holding a live hazard reference
    to it (so a page with a live hazard reference is never reclaimed); and
    when an eviction attempt that marked the reference ends aborted, however
    the other threads' steps interleave with the scan, the reference (page
    and state) is again what it was before the attempt: in cache, the page
    resident. *)
Theorem hazard_eviction_safety (s : cache_sys) :
  reachable s ->
  (forall (p : ptr) (s' : cache_sys),
      step s (Reclaimed p) s' ->
      p = ref_page (ref s) /\
      forall (j : nat) (hp : ptr),
        readers s !! j = Some (RHolding hp) -> hp <> p) /\
  (forall s1 s2 s3 : cache_sys,
      step s Marked s1 -> during_attempt s1 s2 -> step s2 Aborted s3 ->
      ref s3 = ref s /\ ref_state (ref s3) = WT_REF_CACHE /\
      readers s3 = readers s2).
Proof.
  intros Hs. split.
  - intros p s' Hstep.
    destruct (step_reclaimed_inv s s' p Hstep) as (i & Hev & Hi & -> & _).
    split; [reflexivity|]. intros j hp Hj.
    pose proof (reachable_inv s Hs) as Hinv. unfold cache_inv in Hinv.
    rewrite Hev in Hinv. destruct Hinv as [_ Hscan].
    apply (Hscan j hp); [|exact Hj].
    apply lookup_ge_None in Hi. apply lookup_lt_Some in Hj. lia.
  - intros s1 s2 s3 Hmark Hatt Habort.
    destruct (step_marked_inv s s1 Hmark) as (Hst & ->).
    assert (Hs1 : reachable
              {| ref := {| ref_page := ref_page (ref s); ref_state := WT_REF_EVICT |};
                 readers := readers s; evictor := EScan 0 |})
      by (eapply reach_step; eassumption).
    destruct (during_attempt_ref _ s2 Hs1 Hatt) as (_ & _ & Href).
    destruct (step_aborted_inv s2 s3 Habort) as (i & r & _ & _ & _ & ->).
    cbn [ref ref_state readers] in *. rewrite Href. cbn [ref_page].
    rewrite <- Hst. destruct (ref s); auto.
Qed.

Lemma holding_state_reachable : reachable holding_state.
Proof.
  apply (run_reachable holding_schedule (cache_init 1) holding_state
           [Loaded 4096; Quiet; Quiet; Quiet]).
  - apply reach_init.
  - reflexivity.
Qed.

Lemma stale_state_reachable : reachable stale_state.
Proof.
  apply (run_reachable stale_schedule (cache_init 1) stale_state
           [Loaded 4096; Quiet; Marked; Quiet; Quiet; Reclaimed 4096;
            Loaded 8192; Quiet; Marked; Quiet]).
  - apply reach_init.
  - reflexivity.
Qed.

Lemma hazard_eviction_safety_witness :
  (forall (j : nat) (hp : ptr),
      readers stale_state !! j = Some (RHolding hp) -> hp <> 8192) /\
  ref {| ref := {| ref_page := 4096; ref_state := WT_REF_CACHE |};
         readers := [RHolding 4096]; evictor := EIdle |} = ref holding_state.
Proof.
  split.
  - apply (proj1 (hazard_eviction_safety stale_state stale_state_reachable)
             8192
             {| ref := {| ref_page := NULL; ref_state := WT_REF_DISK |};
                readers := [RHolding 4096]; evictor := EIdle |}).
    apply (step_exec _ _ _ EvictServer). reflexivity.
  - apply (proj2 (hazard_eviction_safety holding_state holding_state_reachable)
             {| ref := {| ref_page := 4096; ref_state := WT_REF_EVICT |};
                readers := [RHolding 4096]; evictor := EScan 0 |}
             {| ref := {| ref_page := 4096; ref_state := WT_REF_EVICT |};
                readers := [RHolding 4096]; evictor := EScan 0 |}).
    + apply (step_exec _ _ _ EvictServer). reflexivity.
    + apply attempt_here. exact I.
    + apply (step_exec _ _ _ EvictServer). reflexivity.
Defined.

(** An eviction attempt on a page with a live hazard reference aborts at
    the holder's slot. *)
Lemma evict_aborts_at_holder (s : cache_sys) (i : nat) :
  evictor s = EScan i ->
  readers s !! i = Some (RHolding (ref_page (ref s))) ->
  exec EvictServer s =
  Some (Aborted,
        {| ref := {| ref_page := ref_page (ref s); ref_state := WT_REF_CACHE |};
           readers := readers s; evictor := EIdle |}).
Proof.
  intros Hev Hi. cbn [exec]. unfold evict_server_step. rewrite Hev, Hi.
  cbn [hazard_of]. now rewrite bool_decide_eq_true_2.
Qed.

(** Mark a page for eviction while a reader holds a hazard reference: the
    attempt aborts and the page stays in the cache; after the reader lets
    go, the next attempt reclaims the page and the reference is on disk. *)
Example evict_abort_then_reclaim :
  run (holding_schedule ++
       [EvictServer; EvictServer; Reader 0; EvictServer; EvictServer; EvictServer])
      (cache_init 1)
  = Some ([Loaded 4096; Quiet; Quiet; Quiet;
           Marked; Aborted; Quiet; Marked; Quiet; Reclaimed 4096],
          {| ref := {| ref_page := NULL; ref_state := WT_REF_DISK |};
             readers := [RIdle]; evictor := EIdle |}).
Proof. reflexivity. Qed.

(** A hazard reference set after the evictor passed the slot is not live:
    the reader finds the state changed, lets go and retries. *)
Example late_hazard_is_released :
  run [ReadServer 4096; Reader 0; EvictServer; EvictServer; Reader 0;
       EvictServer; Reader 0]
      (cache_init 1)
  = Some ([Loaded 4096; Quiet; Marked; Quiet; Quiet; Reclaimed 4096; Quiet],
          {| ref := {| ref_page := NULL; ref_state := WT_REF_DISK |};
             readers := [RIdle]; evictor := EIdle |}).
Proof. reflexivity. Qed.

(* ===================================================================== *)
(** * Further properties of the header's code *)
(* ===================================================================== *)

(** ** More on the item cell *)

Lemma type_mask_decompose (x : Z) :
  Z.land x 0x0f000000 = Z.shiftl (Z.land (Z.shiftr x 24) 15) 24.
Proof.
  change 0x0f000000 with (Z.shiftl 15 24).
  rewrite Z.shiftl_land.
  apply Z.bits_inj'; intros i Hi. rewrite !Z.land_spec.
  destruct (Z.lt_ge_cases i 24) as [Hlo | Hhi].
  - rewrite !Z.shiftl_spec_low by lia. now rewrite andb_false_r.
  - rewrite !Z.shiftl_spec by lia. rewrite Z.shiftr_spec by lia.
    now replace (i - 24 + 24) with i by lia.
Qed.

Lemma type_len_cell_disjoint (x : Z) :
  Z.land (Z.land x 0x0f000000) (Z.land x 0x00ffffff) = 0.
Proof.
  rewrite (Z.land_comm x 0x00ffffff), Z.land_assoc, type_len_disjoint.
  apply Z.land_0_l.
Qed.

Lemma item_type_nibble (cell : WT_ITEM) :
  exists k, 0 <= k <= 15 /\ WT_ITEM_TYPE cell = k * 2 ^ 24.
Proof.
  exists (Z.shiftr (__item_chunk cell) 24 mod 2 ^ 4). split.
  - pose proof (Z.mod_pos_bound (Z.shiftr (__item_chunk cell) 24) (2 ^ 4) ltac:(lia)).
    lia.
  - unfold WT_ITEM_TYPE.
    rewrite type_mask_decompose, Z.shiftl_mul_pow2 by lia.
    f_equal. change 15 with (Z.ones 4). apply Z.land_ones. lia.
Qed.

Lemma item_fields_lor (cell : WT_ITEM) :
  Z.lor (WT_ITEM_TYPE cell) (WT_ITEM_LEN cell) = __item_chunk cell mod 2 ^ 28.
Proof.
  unfold WT_ITEM_TYPE, WT_ITEM_LEN. rewrite <- Z.land_lor_distr_r.
  change (Z.lor 0x0f000000 0x00ffffff) with (Z.ones 28).
  apply Z.land_ones. lia.
Qed.

(** X1.  Whatever the 32 bits of a cell are, the decoded length is at most
    [WT_ITEM_MAX_LEN], the decoded type is a multiple of 2^24 no larger
    than 0x0f000000, and type and length together are the cell's low 28
    bits: decoding drops the four unused bits and nothing else. *)
Theorem item_decode_bounds (cell : WT_ITEM) :
  0 <= WT_ITEM_LEN cell <= WT_ITEM_MAX_LEN /\
  0 <= WT_ITEM_TYPE cell <= 0x0f000000 /\
  WT_ITEM_TYPE cell mod 2 ^ 24 = 0 /\
  WT_ITEM_TYPE cell + WT_ITEM_LEN cell = __item_chunk cell mod 2 ^ 28.
Proof.
  destruct (item_type_nibble cell) as (k & Hk & Ht).
  assert (Hl : WT_ITEM_LEN cell = __item_chunk cell mod 2 ^ 24).
  { unfold WT_ITEM_LEN. change 0x00ffffff with (Z.ones 24).
    now rewrite Z.land_ones by lia. }
  pose proof (Z.mod_pos_bound (__item_chunk cell) (2 ^ 24) ltac:(lia)) as Hb.
  split; [unfold WT_ITEM_MAX_LEN; lia|].
  split; [lia|]. split; [rewrite Ht; apply Z.mod_mul; lia|].
  rewrite Z.add_nocarry_lxor, Z.lxor_lor
    by (unfold WT_ITEM_TYPE, WT_ITEM_LEN; apply type_len_cell_disjoint).
  apply item_fields_lor.
Qed.

(** X2.  A cell's decoded type is one of the 11 item types exactly when it
    is no larger than [WT_ITEM_OFF_RECORD]: the five tag values 11 to 15
    decode to a type that no item has, and nothing rejects them. *)
Theorem item_type_known_iff (cell : WT_ITEM) :
  (exists t : item_type, WT_ITEM_TYPE cell = item_type_code t) <->
  WT_ITEM_TYPE cell <= WT_ITEM_OFF_RECORD.
Proof.
  destruct (item_type_nibble cell) as (k & Hk & Ht). rewrite Ht. split.
  - intros [t Heq]. rewrite Heq. destruct t; cbv; congruence.
  - intros Hle. unfold WT_ITEM_OFF_RECORD in Hle.
    assert (Hcases : k = 0 \/ k = 1 \/ k = 2 \/ k = 3 \/ k = 4 \/ k = 5 \/
                     k = 6 \/ k = 7 \/ k = 8 \/ k = 9 \/ k = 10) by lia.
    destruct Hcases
      as [-> | [-> | [-> | [-> | [-> | [-> | [-> | [-> | [-> | [-> | ->]]]]]]]]]];
      [exists ItemKey | exists ItemKeyOvfl | exists ItemKeyDup
      | exists ItemKeyDupOvfl | exists ItemData | exists ItemDataOvfl
      | exists ItemDataDup | exists ItemDataDupOvfl | exists ItemDel
      | exists ItemOff | exists ItemOffRecord]; reflexivity.
Qed.

Example item_type_unused_tag :
  WT_ITEM_TYPE {| __item_chunk := 0x0b000010 |} = 0x0b000000 /\
  ~ exists t : item_type,
      WT_ITEM_TYPE {| __item_chunk := 0x0b000010 |} = item_type_code t.
Proof.
  split; [reflexivity|]. intros [t Ht]. destruct t; discriminate Ht.
Qed.

(** X3.  The encoding is injective on valid operands: two cells stored by
    [WT_ITEM_SET] from item types and lengths within the cap are equal only
    if the types are equal and the lengths are equal. *)
Theorem item_set_injective (a b : WT_ITEM) (t u : item_type) (m n : Z) :
  0 <= m <= WT_ITEM_MAX_LEN -> 0 <= n <= WT_ITEM_MAX_LEN ->
  WT_ITEM_SET a (item_type_code t) m = WT_ITEM_SET b (item_type_code u) n ->
  t = u /\ m = n.
Proof.
  intros Hm Hn Heq.
  assert (Ht : WT_ITEM_TYPE (WT_ITEM_SET a (item_type_code t) m)
               = WT_ITEM_TYPE (WT_ITEM_SET b (item_type_code u) n)) by now rewrite Heq.
  assert (Hl : WT_ITEM_LEN (WT_ITEM_SET a (item_type_code t) m)
               = WT_ITEM_LEN (WT_ITEM_SET b (item_type_code u) n)) by now rewrite Heq.
  rewrite !type_of_set, !item_type_code_type_bits in Ht.
  rewrite (land_type_mask_small m), (land_type_mask_small n), !Z.lor_0_r in Ht
    by assumption.
  rewrite !len_of_set, !item_type_code_len_bits, !Z.lor_0_l in Hl.
  rewrite (land_low24_small m), (land_low24_small n) in Hl by assumption.
  split; [now apply item_type_code_inj | exact Hl].
Qed.

Lemma item_set_injective_witness : ItemData = ItemData /\ 5 = 5.
Proof.
  apply (item_set_injective {| __item_chunk := 1 |} {| __item_chunk := 2 |}
           ItemData ItemData 5 5).
  - unfold WT_ITEM_MAX_LEN. lia.
  - unfold WT_ITEM_MAX_LEN. lia.
  - reflexivity.
Defined.

(** X4.  The two updates compose to a fresh store, in either order: for
    every cell, an item type and a length within the cap, setting the length
    and then the type, or the type and then the length, leaves the cell
    that [WT_ITEM_SET] stores from that type and length. *)
Theorem item_updates_compose (cell : WT_ITEM) (t : item_type) (len : Z) :
  0 <= len <= WT_ITEM_MAX_LEN ->
  WT_ITEM_SET_TYPE (WT_ITEM_SET_LEN cell len) (item_type_code t)
    = WT_ITEM_SET cell (item_type_code t) len /\
  WT_ITEM_SET_LEN (WT_ITEM_SET_TYPE cell (item_type_code t)) len
    = WT_ITEM_SET cell (item_type_code t) len.
Proof.
  intros Hlen. split.
  - unfold WT_ITEM_SET_TYPE at 1.
    replace (WT_ITEM_LEN (WT_ITEM_SET_LEN cell len)) with len; [reflexivity|].
    unfold WT_ITEM_SET_LEN. rewrite len_of_set. unfold WT_ITEM_TYPE.
    now rewrite type_len_disjoint, Z.lor_0_l, land_low24_small.
  - unfold WT_ITEM_SET_LEN at 1.
    replace (WT_ITEM_TYPE (WT_ITEM_SET_TYPE cell (item_type_code t)))
      with (item_type_code t); [reflexivity|].
    unfold WT_ITEM_SET_TYPE. rewrite type_of_set. unfold WT_ITEM_LEN.
    now rewrite len_type_disjoint, Z.lor_0_r, item_type_code_type_bits.
Qed.

Lemma item_updates_compose_witness :
  WT_ITEM_SET_TYPE (WT_ITEM_SET_LEN {| __item_chunk := 0xf5abcdef |} 9)
      (item_type_code ItemOff)
    = WT_ITEM_SET {| __item_chunk := 0xf5abcdef |} (item_type_code ItemOff) 9 /\
  WT_ITEM_SET_LEN (WT_ITEM_SET_TYPE {| __item_chunk := 0xf5abcdef |}
                     (item_type_code ItemOff)) 9
    = WT_ITEM_SET {| __item_chunk := 0xf5abcdef |} (item_type_code ItemOff) 9.
Proof.
  apply (item_updates_compose {| __item_chunk := 0xf5abcdef |} ItemOff 9).
  unfold WT_ITEM_MAX_LEN. lia.
Defined.

(** X5.  Storing a cell's own length back with [WT_ITEM_SET_LEN], or its
    own type with [WT_ITEM_SET_TYPE], keeps the cell's low 28 bits and
    clears the four unused ones; it is the identity exactly on the cells
    whose unused bits are clear. *)
Theorem item_update_same (cell : WT_ITEM) :
  0 <= __item_chunk cell <= UINT32_MAX ->
  __item_chunk (WT_ITEM_SET_LEN cell (WT_ITEM_LEN cell)) = __item_chunk cell mod 2 ^ 28 /\
  __item_chunk (WT_ITEM_SET_TYPE cell (WT_ITEM_TYPE cell)) = __item_chunk cell mod 2 ^ 28 /\
  (WT_ITEM_SET_LEN cell (WT_ITEM_LEN cell) = cell <-> __item_chunk cell < 2 ^ 28).
Proof.
  unfold UINT32_MAX. intros Hc.
  pose proof (item_fields_lor cell) as Hor.
  pose proof (Z.mod_pos_bound (__item_chunk cell) (2 ^ 28) ltac:(lia)) as Hb.
  assert (H1 : __item_chunk (WT_ITEM_SET_LEN cell (WT_ITEM_LEN cell))
               = __item_chunk cell mod 2 ^ 28).
  { unfold WT_ITEM_SET_LEN, WT_ITEM_SET, wrap32; cbn [__item_chunk].
    rewrite Hor. apply Z.mod_small. lia. }
  split; [exact H1|]. split.
  - unfold WT_ITEM_SET_TYPE, WT_ITEM_SET, wrap32; cbn [__item_chunk].
    rewrite Hor. apply Z.mod_small. lia.
  - split.
    + intros Heq. rewrite Heq in H1. rewrite H1. lia.
    + intros Hlt. destruct cell as [c]. cbn [__item_chunk] in *.
      unfold WT_ITEM_SET_LEN, WT_ITEM_SET in *. cbn [__item_chunk] in H1.
      f_equal. rewrite H1. apply Z.mod_small. lia.
Qed.

Lemma item_update_same_witness :
  __item_chunk (WT_ITEM_SET_LEN {| __item_chunk := 0xf5abcdef |}
                  (WT_ITEM_LEN {| __item_chunk := 0xf5abcdef |})) = 0x05abcdef.
Proof.
  apply (item_update_same {| __item_chunk := 0xf5abcdef |}).
  unfold UINT32_MAX. cbn [__item_chunk]. lia.
Defined.

(** ** More on addresses and offsets *)

(** X6.  The address/offset round trip holds for every 32-bit address, the
    two special addresses [WT_ADDR_DELETED] and [WT_ADDR_INVALID] included,
    and every allocation unit from 1 byte to 2GB: the product fits [off_t]
    and the division gives the address back. *)
Theorem addr_offset_roundtrip_all (db : DB) (a : Z) :
  0 <= a <= UINT32_MAX ->
  0 < allocsize db <= 2 ^ 31 ->
  (WT_ADDR_TO_OFF db a ≫= WT_OFF_TO_ADDR db) = Some a.
Proof.
  unfold UINT32_MAX. intros Ha Hu.
  assert (Hprod : 0 <= a * allocsize db <= 4294967295 * 2 ^ 31) by nia.
  unfold WT_ADDR_TO_OFF, off_t_mul.
  rewrite (proj2 (in_off_t_iff _)) by (unfold OFF_T_MIN, OFF_T_MAX; lia).
  cbn [mbind option_bind]. unfold WT_OFF_TO_ADDR.
  rewrite off_t_div_defined by (unfold OFF_T_MIN, OFF_T_MAX; lia).
  cbn [mbind option_bind]. rewrite Z.quot_mul by lia.
  unfold wrap32. now rewrite Z.mod_small by lia.
Qed.

Lemma addr_offset_roundtrip_all_witness :
  (WT_ADDR_TO_OFF {| allocsize := 2147483648 |} WT_ADDR_INVALID
     ≫= WT_OFF_TO_ADDR {| allocsize := 2147483648 |}) = Some WT_ADDR_INVALID.
Proof.
  apply (addr_offset_roundtrip_all {| allocsize := 2147483648 |} WT_ADDR_INVALID).
  - unfold WT_ADDR_INVALID, UINT32_MAX. lia.
  - cbn [allocsize]. lia.
Defined.

(** With a 4GB allocation unit the product of a large address overflows
    [off_t]. *)
Example addr_to_off_overflow :
  WT_ADDR_TO_OFF {| allocsize := 4294967295 |} 4294967295 = None.
Proof. reflexivity. Qed.

(** X7.  Offset to address and back rounds down: for a byte offset whose
    quotient fits 32 bits, [WT_ADDR_TO_OFF] of [WT_OFF_TO_ADDR] of the
    offset is the offset less its remainder by the allocation unit, the
    offset itself exactly when it is aligned. *)
Theorem off_addr_off_rounds_down (db : DB) (off : Z) :
  0 < allocsize db <= UINT32_MAX ->
  0 <= off <= OFF_T_MAX ->
  off / allocsize db <= UINT32_MAX ->
  (WT_OFF_TO_ADDR db off ≫= WT_ADDR_TO_OFF db)
    = Some (off - off mod allocsize db) /\
  ((WT_OFF_TO_ADDR db off ≫= WT_ADDR_TO_OFF db) = Some off
   <-> off mod allocsize db = 0).
Proof.
  unfold UINT32_MAX, OFF_T_MAX. intros Hu Hoff Hq.
  assert (Hq0 : 0 <= off / allocsize db) by (apply Z.div_pos; lia).
  assert (Hdm : off = allocsize db * (off / allocsize db) + off mod allocsize db)
    by (apply Z.div_mod; lia).
  pose proof (Z.mod_pos_bound off (allocsize db) ltac:(lia)) as Hm.
  assert (Hgo : (WT_OFF_TO_ADDR db off ≫= WT_ADDR_TO_OFF db)
                = Some (off - off mod allocsize db)).
  { unfold WT_OFF_TO_ADDR.
    rewrite off_t_div_defined by (unfold OFF_T_MIN, OFF_T_MAX; lia).
    cbn [mbind option_bind]. rewrite Z.quot_div_nonneg by lia.
    unfold wrap32. rewrite Z.mod_small by lia.
    unfold WT_ADDR_TO_OFF, off_t_mul.
    rewrite (proj2 (in_off_t_iff _)) by (unfold OFF_T_MIN, OFF_T_MAX; nia).
    f_equal. lia. }
  split; [exact Hgo|]. rewrite Hgo. split.
  - intros [= Heq]. lia.
  - intros Hz. f_equal. lia.
Qed.

Lemma off_addr_off_rounds_down_witness :
  (WT_OFF_TO_ADDR {| allocsize := 512 |} 1535
     ≫= WT_ADDR_TO_OFF {| allocsize := 512 |}) = Some (1535 - 1535 mod 512).
Proof.
  apply (off_addr_off_rounds_down {| allocsize := 512 |} 1535).
  - unfold UINT32_MAX. cbn [allocsize]. lia.
  - unfold OFF_T_MAX. lia.
  - unfold UINT32_MAX. cbn [allocsize]. 
    change (1535 / 512) with 2. lia.
Defined.

(** X8.  Where [WT_ADDR_TO_OFF] is defined its result is a multiple of the
    allocation unit, and a larger address lies at least one allocation unit
    further into the file: the units of two addresses never overlap. *)
Theorem addr_to_off_units_disjoint (db : DB) (a b x y : Z) :
  0 < allocsize db ->
  a < b ->
  WT_ADDR_TO_OFF db a = Some x -> WT_ADDR_TO_OFF db b = Some y ->
  x mod allocsize db = 0 /\ y mod allocsize db = 0 /\ x + allocsize db <= y.
Proof.
  intros Hu Hab Hx Hy. unfold WT_ADDR_TO_OFF, off_t_mul in *.
  destruct (in_off_t (a * allocsize db)); [|discriminate Hx].
  destruct (in_off_t (b * allocsize db)); [|discriminate Hy].
  injection Hx as <-. injection Hy as <-.
  rewrite !Z.mod_mul by lia. split; [reflexivity|]. split; [reflexivity|]. nia.
Qed.

Lemma addr_to_off_units_disjoint_witness :
  1536 mod 512 = 0 /\ 2048 mod 512 = 0 /\ 1536 + 512 <= 2048.
Proof.
  apply (addr_to_off_units_disjoint {| allocsize := 512 |} 3 4 1536 2048).
  - cbn [allocsize]. lia.
  - lia.
  - reflexivity.
  - reflexivity.
Defined.

(** ** More on the generations *)

(** X9.  After a page with a 32-bit write generation is written, [n]
    modifications in a row leave it clean exactly when [n] is a multiple of
    2^32: it is dirty after 1 to 2^32 - 1 modifications, and the wrapped
    write generation meets the disk generation again at the 2^32-th. *)
Theorem dirty_until_wrap (n : nat) (p : WT_PAGE) :
  0 <= write_gen p <= UINT32_MAX ->
  (WT_PAGE_IS_MODIFIED (modify_times n (WT_PAGE_DISK_WRITE p)) = false
   <-> Z.of_nat n mod 2 ^ 32 = 0).
Proof.
  intros Hw. unfold WT_PAGE_IS_MODIFIED.
  rewrite modify_times_disk_gen, modify_times_write_gen by exact Hw.
  cbn [WT_PAGE_DISK_WRITE disk_gen write_gen set_disk_gen].
  rewrite negb_false_iff, Z.eqb_eq. unfold wrap32, UINT32_MAX in *.
  rewrite Z.add_mod by lia. rewrite (Z.mod_small (write_gen p)) by lia.
  pose proof (Z.mod_pos_bound (Z.of_nat n) (2 ^ 32) ltac:(lia)) as Hb.
  split.
  - intros H.
    destruct (Z.lt_ge_cases (write_gen p + Z.of_nat n mod 2 ^ 32) (2 ^ 32)) as [Hs | Hg].
    + rewrite Z.mod_small in H by lia. lia.
    + replace (write_gen p + Z.of_nat n mod 2 ^ 32)
        with (write_gen p + Z.of_nat n mod 2 ^ 32 - 2 ^ 32 + 1 * 2 ^ 32) in H by lia.
      rewrite Z.mod_add, Z.mod_small in H by lia. lia.
  - intros ->. rewrite Z.add_0_r. symmetry. apply Z.mod_small. lia.
Qed.

Lemma dirty_until_wrap_witness :
  WT_PAGE_IS_MODIFIED (modify_times 3 (WT_PAGE_DISK_WRITE sample_page)) = false
  <-> Z.of_nat 3 mod 2 ^ 32 = 0.
Proof.
  apply (dirty_until_wrap 3 sample_page).
  unfold UINT32_MAX. cbn [write_gen sample_page]. lia.
Defined.

(** ** The on-disk structures *)

(** X10.  Under the alignment rules no on-disk structure has padding
    between its members: for the file descriptor, the page header, the item
    cell, the two off-page references and the overflow reference every
    member lies where the packed layout puts it, and the last member ends
    at the declared size (512, 28, 4, 8, 16 and 8 bytes).  The page header
    alone is padded at its end: its 64-bit member aligns it to 8 bytes and
    28 is no multiple of 8, so its [sizeof] is 32, four bytes more than
    [WT_PAGE_DISK_SIZE]; the [sizeof] of each of the other five is its
    declared size.  The two off-page references share the offsets of
    [addr] and [size], and the header's union is at offset 20. *)
Theorem on_disk_structures_padding :
  Forall (fun sz : list member * Z =>
            layout_from 0 (fst sz) = packed_from 0 (fst sz) /\
            snd (layout_from 0 (fst sz)) = snd sz)
    [ (__wt_page_desc, WT_PAGE_DESC_SIZE);
      (__wt_page_disk, WT_PAGE_DISK_SIZE);
      (__wt_item, WT_ITEM_SIZE);
      (__wt_off, WT_OFF_SIZE);
      (__wt_off_record, WT_OFF_RECORD_SIZE);
      (__wt_ovfl, WT_OVFL_SIZE) ] /\
  Forall (fun sz : list member * Z => struct_sizeof (fst sz) = snd sz)
    [ (__wt_page_desc, WT_PAGE_DESC_SIZE);
      (__wt_item, WT_ITEM_SIZE);
      (__wt_off, WT_OFF_SIZE);
      (__wt_off_record, WT_OFF_RECORD_SIZE);
      (__wt_ovfl, WT_OVFL_SIZE) ] /\
  (struct_align __wt_page_disk = 8 /\
   WT_PAGE_DISK_SIZE mod struct_align __wt_page_disk = 4 /\
   struct_sizeof __wt_page_disk = WT_PAGE_DISK_SIZE + 4) /\
  offsetof __wt_off "addr" = offsetof __wt_off_record "addr" /\
  offsetof __wt_off "size" = offsetof __wt_off_record "size" /\
  offsetof __wt_page_disk "u" = Some 20.
Proof.
  split; [|split; [|repeat split]].
  - repeat (constructor; [split; reflexivity|]). constructor.
  - repeat (constructor; [reflexivity|]). constructor.
Qed.

(** ** The record count of an off-page reference *)

Lemma lor_shiftl_add (x y n : Z) :
  0 <= n -> 0 <= x < 2 ^ n -> Z.lor x (Z.shiftl y n) = x + 2 ^ n * y.
Proof.
  intros Hn Hx.
  assert (Hdis : Z.land x (Z.shiftl y n) = 0).
  { apply Z.bits_inj'; intros i Hi. rewrite Z.land_spec, Z.testbit_0_l.
    destruct (Z.lt_ge_cases i n) as [Hlo | Hhi].
    - rewrite Z.shiftl_spec_low by lia. apply andb_false_r.
    - rewrite <- (Z.mod_small x (2 ^ n)) by lia.
      rewrite Z.mod_pow2_bits_high by lia. reflexivity. }
  rewrite <- Z.lxor_lor, <- Z.add_nocarry_lxor, Z.shiftl_mul_pow2 by assumption.
  lia.
Qed.

Lemma le_combine_two_words (a b : Z) :
  le_combine (le_split 4 a ++ le_split 4 b) = a mod 2 ^ 32 + 2 ^ 32 * (b mod 2 ^ 32).
Proof.
  rewrite le_combine_app, !le_combine_split, length_le_split.
  change (Z.of_nat 4 * 8) with 32.
  apply lor_shiftl_add; [lia | apply Z.mod_pos_bound; lia].
Qed.

(** The bytes a member was read from are the bytes that writing the value
    read puts back. *)
Lemma put_get_slice (bo : byte_order) (t : ctype) (off : Z) (buf : list byte) :
  in_bounds buf off (sizeof t) = true ->
  put bo t (get bo t off buf)
  = take (Z.to_nat (sizeof t)) (drop (Z.to_nat off) buf).
Proof.
  unfold in_bounds. rewrite !andb_true_iff, !Z.leb_le. intros [[Hoff _] Hlen].
  unfold put, get.
  set (bs := take (Z.to_nat (sizeof t)) (drop (Z.to_nat off) buf)).
  assert (Hbs : length bs = Z.to_nat (sizeof t)).
  { unfold bs. rewrite length_take, length_drop. pose proof (sizeof_pos t). lia. }
  destruct bo.
  - now apply split_le_combine'.
  - rewrite split_le_combine' by (now rewrite length_rev).
    apply rev_involutive.
Qed.

(** X11.  [WT_RECORDS] reassembles the two 32-bit words into one 64-bit
    count in the byte order of the host: first word low on a little-endian
    host, first word high on a big-endian one; and a count stored through
    [WT_RECORDS] is read back unchanged for every 64-bit value, with the
    address and size of the reference untouched. *)
Theorem records_reassembled (bo : byte_order) (offp : WT_OFF_RECORD) (v : Z) :
  0 <= fst (__record_chunk offp) < 2 ^ 32 ->
  0 <= snd (__record_chunk offp) < 2 ^ 32 ->
  0 <= v < 2 ^ 64 ->
  WT_RECORDS LittleEndian offp
    = fst (__record_chunk offp) + 2 ^ 32 * snd (__record_chunk offp) /\
  WT_RECORDS BigEndian offp
    = 2 ^ 32 * fst (__record_chunk offp) + snd (__record_chunk offp) /\
  WT_RECORDS bo (WT_RECORDS_SET bo v offp) = v /\
  offr_addr (WT_RECORDS_SET bo v offp) = offr_addr offp /\
  offr_size (WT_RECORDS_SET bo v offp) = offr_size offp.
Proof.
  intros H0 H1 Hv. destruct offp as [a s [w0 w1]]. cbn [__record_chunk fst snd] in *.
  split; [|split; [|split; [|split; reflexivity]]].
  - unfold WT_RECORDS, get, put; cbn [__record_chunk fst snd sizeof].
    change (Z.to_nat 0) with 0%nat. rewrite drop_0.
    rewrite take_ge by (rewrite length_app, !length_le_split; cbn; lia).
    change (Z.to_nat 4) with 4%nat.
    rewrite le_combine_two_words, !Z.mod_small by lia. reflexivity.
  - unfold WT_RECORDS, get, put; cbn [__record_chunk fst snd sizeof].
    change (Z.to_nat 0) with 0%nat. rewrite drop_0.
    rewrite take_ge by (rewrite length_app, !length_rev, !length_le_split; cbn; lia).
    change (Z.to_nat 4) with 4%nat.
    rewrite rev_app_distr, !rev_involutive.
    rewrite le_combine_two_words, !Z.mod_small by lia. lia.
  - unfold WT_RECORDS, WT_RECORDS_SET; cbn [__record_chunk fst snd].
    assert (Hlen : length (put bo uint64_t v) = 8%nat) by apply length_put.
    rewrite !put_get_slice
      by (unfold in_bounds; rewrite Hlen; reflexivity).
    change (Z.to_nat (sizeof uint32_t)) with 4%nat.
    change (Z.to_nat 0) with 0%nat. change (Z.to_nat 4) with 4%nat.
    rewrite drop_0, take_take_drop. change (4 + 4)%nat with 8%nat.
    rewrite take_ge by lia.
    rewrite <- (app_nil_r (put bo uint64_t v)), get_put_here.
    apply Z.mod_small. cbn [sizeof]. lia.
Qed.

Lemma records_reassembled_witness :
  WT_RECORDS LittleEndian {| offr_addr := 7; offr_size := 512; __record_chunk := (5, 1) |}
    = 5 + 2 ^ 32 * 1 /\
  WT_RECORDS BigEndian {| offr_addr := 7; offr_size := 512; __record_chunk := (5, 1) |}
    = 2 ^ 32 * 5 + 1.
Proof.
  pose proof (records_reassembled LittleEndian
                {| offr_addr := 7; offr_size := 512; __record_chunk := (5, 1) |}
                18446744073709551615) as H.
  cbn [__record_chunk fst snd] in H.
  destruct H as (Hle & Hbe & _); [lia | lia | lia |].
  split; [exact Hle | exact Hbe].
Defined.

Example records_set_max :
  WT_RECORDS_SET LittleEndian 18446744073709551615
    {| offr_addr := 7; offr_size := 512; __record_chunk := (0, 0) |}
  = {| offr_addr := 7; offr_size := 512;
       __record_chunk := (4294967295, 4294967295) |}.
Proof. vm_compute. reflexivity. Qed.

(** ** Walking the items of a page *)

Lemma align_bounds (n v : Z) :
  0 < v -> n <= WT_ALIGN n v < n + v /\ WT_ALIGN n v mod v = 0.
Proof.
  intros Hv. unfold WT_ALIGN. split.
  - pose proof (Z.div_mod (n + (v - 1)) v ltac:(lia)) as Hdm.
    pose proof (Z.mod_pos_bound (n + (v - 1)) v Hv) as Hm. nia.
  - apply Z.mod_mul. lia.
Qed.

Lemma space_req_facts (size : Z) :
  WT_ITEM_SIZE + size <= WT_ITEM_SPACE_REQ size <= WT_ITEM_SIZE + size + 3 /\
  WT_ITEM_SPACE_REQ size mod 4 = 0.
Proof.
  unfold WT_ITEM_SPACE_REQ. change (sizeof uint32_t) with 4.
  destruct (align_bounds (WT_ITEM_SIZE + size) 4 ltac:(lia)) as [Hb Hm].
  split; [lia | exact Hm].
Qed.

(** X12.  The space an item takes is its cell and data rounded up to the
    next multiple of 4: between [size + 4] and [size + 7] bytes and a
    multiple of 4, so the data of an item ends at or before the item that
    [WT_ITEM_NEXT] computes and a 4-byte aligned item is followed by a
    4-byte aligned item. *)
Theorem item_space_req_bounds (size item : Z) :
  item mod 4 = 0 ->
  WT_ITEM_SIZE + size <= WT_ITEM_SPACE_REQ size <= WT_ITEM_SIZE + size + 3 /\
  WT_ITEM_SPACE_REQ size mod 4 = 0 /\
  WT_ITEM_BYTE item + size <= item + WT_ITEM_SPACE_REQ size /\
  (item + WT_ITEM_SPACE_REQ size) mod 4 = 0.
Proof.
  intros Hi. destruct (space_req_facts size) as [Hb Hm].
  unfold WT_ITEM_BYTE. repeat split; try lia.
  rewrite Z.add_mod, Hi, Hm by lia. reflexivity.
Qed.

Lemma item_space_req_bounds_witness :
  WT_ITEM_SIZE + 3 <= WT_ITEM_SPACE_REQ 3 <= WT_ITEM_SIZE + 3 + 3 /\
  WT_ITEM_SPACE_REQ 3 mod 4 = 0 /\
  WT_ITEM_BYTE 28 + 3 <= 28 + WT_ITEM_SPACE_REQ 3 /\
  (28 + WT_ITEM_SPACE_REQ 3) mod 4 = 0.
Proof.
  apply (item_space_req_bounds 3 28). reflexivity.
Defined.

Lemma in_bounds_iff (buf : list byte) (off n : Z) :
  in_bounds buf off n = true <->
  0 <= off /\ 0 <= n /\ off + n <= Z.of_nat (length buf).
Proof. unfold in_bounds. rewrite !andb_true_iff, !Z.leb_le. tauto. Qed.

(** A member and a run of bytes read where they were written. *)
Lemma load_at (bo : byte_order) (t : ctype) (v : Z) (pre rest : list byte) :
  fits t v = true ->
  load bo t (pre ++ put bo t v ++ rest) (Z.of_nat (length pre)) = Some v.
Proof.
  intros Hfit. unfold load.
  rewrite (proj2 (in_bounds_iff _ _ _)).
  - rewrite get_skip by lia. rewrite Z.sub_diag, get_put_here.
    f_equal. apply Z.mod_small. now apply fits_iff.
  - rewrite !length_app, length_put. pose proof (sizeof_pos t). lia.
Qed.

Lemma load_bytes_at (d pre rest : list byte) :
  load_bytes (pre ++ d ++ rest) (Z.of_nat (length pre)) (Z.of_nat (length d))
  = Some d.
Proof.
  unfold load_bytes. rewrite (proj2 (in_bounds_iff _ _ _)).
  - rewrite !Nat2Z.id, drop_app_length, take_app_length. reflexivity.
  - rewrite !length_app. lia.
Qed.

Lemma item_image_length (bo : byte_order) (it : item_type * list byte) :
  Z.of_nat (length (item_image bo it))
  = WT_ITEM_SPACE_REQ (Z.of_nat (length (snd it))).
Proof.
  unfold item_image. cbv zeta.
  rewrite !length_app, length_put, length_replicate.
  pose proof (space_req_facts (Z.of_nat (length (snd it)))) as (Hb & _).
  change (sizeof uint32_t) with 4. unfold WT_ITEM_SIZE in *. lia.
Qed.

Lemma item_set_fits (addr : WT_ITEM) (type size : Z) :
  fits uint32_t (__item_chunk (WT_ITEM_SET addr type size)) = true.
Proof.
  apply fits_iff. unfold WT_ITEM_SET, wrap32; cbn [__item_chunk sizeof].
  apply Z.mod_pos_bound. lia.
Qed.

Lemma item_load_image (bo : byte_order) (it : item_type * list byte)
    (pre rest : list byte) :
  item_load bo (pre ++ item_image bo it ++ rest) (Z.of_nat (length pre))
  = Some (WT_ITEM_SET {| __item_chunk := 0 |} (item_type_code (fst it))
            (Z.of_nat (length (snd it)))).
Proof.
  unfold item_load, item_image. cbv zeta. rewrite <- !app_assoc.
  rewrite load_at by apply item_set_fits. reflexivity.
Qed.

Lemma item_set_fields (addr : WT_ITEM) (t : item_type) (len : Z) :
  0 <= len <= WT_ITEM_MAX_LEN ->
  WT_ITEM_TYPE (WT_ITEM_SET addr (item_type_code t) len) = item_type_code t /\
  WT_ITEM_LEN (WT_ITEM_SET addr (item_type_code t) len) = len.
Proof.
  intros Hlen. rewrite type_of_set, len_of_set.
  rewrite item_type_code_type_bits, item_type_code_len_bits.
  rewrite land_type_mask_small, land_low24_small by assumption.
  split; [apply Z.lor_0_r | apply Z.lor_0_l].
Qed.

Lemma item_read_image (bo : byte_order) (it : item_type * list byte)
    (pre rest : list byte) :
  Z.of_nat (length (snd it)) <= WT_ITEM_MAX_LEN ->
  item_read bo (pre ++ item_image bo it ++ rest) (Z.of_nat (length pre))
  = Some (item_type_code (fst it), Z.of_nat (length (snd it)), snd it).
Proof.
  intros Hlen. unfold item_read. rewrite item_load_image. cbn [mbind option_bind].
  destruct (item_set_fields {| __item_chunk := 0 |} (fst it)
              (Z.of_nat (length (snd it))) ltac:(lia)) as [Hty Hln].
  rewrite Hty, Hln.
  unfold item_image. cbv zeta. rewrite <- !app_assoc, app_assoc.
  replace (WT_ITEM_BYTE (Z.of_nat (length pre)))
    with (Z.of_nat (length (pre ++ put bo uint32_t
            (__item_chunk (WT_ITEM_SET {| __item_chunk := 0 |}
               (item_type_code (fst it)) (Z.of_nat (length (snd it)))))))).
  - rewrite load_bytes_at. reflexivity.
  - rewrite length_app, length_put. unfold WT_ITEM_BYTE, WT_ITEM_SIZE.
    change (sizeof uint32_t) with 4. lia.
Qed.

Lemma item_next_image (bo : byte_order) (it : item_type * list byte)
    (pre rest : list byte) :
  Z.of_nat (length (snd it)) <= WT_ITEM_MAX_LEN ->
  WT_ITEM_NEXT bo (pre ++ item_image bo it ++ rest) (Z.of_nat (length pre))
  = Some (Z.of_nat (length (pre ++ item_image bo it))).
Proof.
  intros Hlen. unfold WT_ITEM_NEXT. rewrite item_load_image.
  cbn [mbind option_bind].
  destruct (item_set_fields {| __item_chunk := 0 |} (fst it)
              (Z.of_nat (length (snd it))) ltac:(lia)) as [_ Hln].
  rewrite Hln, length_app, Nat2Z.inj_add, item_image_length. reflexivity.
Qed.

Lemma item_foreach_image (bo : byte_order) (items : list (item_type * list byte))
    (pre rest : list byte) :
  Forall (fun it => Z.of_nat (length (snd it)) <= WT_ITEM_MAX_LEN) items ->
  Z.of_nat (length pre) mod 4 = 0 ->
  exists offs : list ptr,
    item_foreach_from bo (pre ++ items_image bo items ++ rest)
      (Z.of_nat (length pre)) (length items) = Some offs /\
    Forall2 (fun o it =>
               item_read bo (pre ++ items_image bo items ++ rest) o
               = Some (item_type_code (fst it), Z.of_nat (length (snd it)), snd it))
            offs items /\
    Forall (fun o => o mod 4 = 0) offs.
Proof.
  intros Hall. revert pre.
  induction Hall as [|it items Hit _ IH]; intros pre Hal.
  - exists []. cbn. repeat split; constructor.
  - assert (Himg : forall X : list byte,
               pre ++ items_image bo (it :: items) ++ X
               = (pre ++ item_image bo it) ++ items_image bo items ++ X).
    { intros X. unfold items_image. cbn [map concat]. now rewrite <- !app_assoc. }
    assert (Hal' : Z.of_nat (length (pre ++ item_image bo it)) mod 4 = 0).
    { rewrite length_app, Nat2Z.inj_add, item_image_length.
      rewrite Z.add_mod, Hal, (proj2 (space_req_facts _)) by lia. reflexivity. }
    destruct (IH (pre ++ item_image bo it) Hal') as (offs & Hwalk & Hread & Halign).
    exists (Z.of_nat (length pre) :: offs).
    assert (Hbuf : pre ++ items_image bo (it :: items) ++ rest
                   = pre ++ item_image bo it ++ (items_image bo items ++ rest)).
    { unfold items_image. cbn [map concat]. now rewrite <- !app_assoc. }
    split; [|split].
    + cbn [length item_foreach_from]. rewrite Hbuf at 1.
      rewrite item_next_image by exact Hit. cbn [mbind option_bind].
      rewrite Hbuf, app_assoc, Hwalk. reflexivity.
    + constructor.
      * rewrite Hbuf. now apply item_read_image.
      * rewrite Himg. exact Hread.
    + constructor; assumption.
Qed.

Lemma dsk_entries_at (bo : byte_order) (before hdr tail : list byte) (n : Z) :
  Z.of_nat (length hdr) = WT_PAGE_DISK_SIZE ->
  load bo uint32_t hdr 20 = Some n ->
  dsk_entries bo (before ++ hdr ++ tail) (Z.of_nat (length before)) = Some n.
Proof.
  unfold WT_PAGE_DISK_SIZE, dsk_entries. intros Hhdr Hent.
  change (default 0 (offsetof __wt_page_disk "u")) with 20.
  unfold load in *.
  destruct (in_bounds hdr 20 (sizeof uint32_t)) eqn:Hin; [|discriminate Hent].
  apply in_bounds_iff in Hin. cbn [sizeof] in Hin.
  rewrite (proj2 (in_bounds_iff _ _ _))
    by (rewrite !length_app; cbn [sizeof]; lia).
  injection Hent as Hent. f_equal. rewrite <- Hent.
  rewrite get_skip by lia.
  replace (Z.of_nat (length before) + 20 - Z.of_nat (length before)) with 20 by lia.
  unfold get. f_equal. change (Z.to_nat 20) with 20%nat.
  change (Z.to_nat (sizeof uint32_t)) with 4%nat.
  rewrite drop_app_le by lia. rewrite take_app_le; [reflexivity|].
  rewrite length_drop. lia.
Qed.

(** X13.  [WT_ITEM_FOREACH] finds every item again: on a page whose header
    counts [n] entries and is followed by [n] items laid out one after the
    other (cell, data, padding up to [WT_ITEM_SPACE_REQ]), each within the
    length cap, the walk runs its body [n] times, at 4-byte aligned items
    when the page is 4-byte aligned, and the type, length and data read at
    the i-th are those of the i-th item, whatever follows the items. *)
Theorem item_foreach_roundtrip (bo : byte_order) (before hdr rest : list byte)
    (items : list (item_type * list byte)) :
  Z.of_nat (length hdr) = WT_PAGE_DISK_SIZE ->
  Z.of_nat (length before) mod 4 = 0 ->
  load bo uint32_t hdr 20 = Some (Z.of_nat (length items)) ->
  Forall (fun it => Z.of_nat (length (snd it)) <= WT_ITEM_MAX_LEN) items ->
  let buf := before ++ hdr ++ items_image bo items ++ rest in
  exists offs : list ptr,
    WT_ITEM_FOREACH bo buf (Z.of_nat (length before)) = Some offs /\
    length offs = length items /\
    Forall (fun o => o mod 4 = 0) offs /\
    Forall2 (fun o it =>
               item_read bo buf o
               = Some (item_type_code (fst it), Z.of_nat (length (snd it)), snd it))
            offs items.
Proof.
  intros Hhdr Hal Hent Hall buf.
  assert (Hal' : Z.of_nat (length (before ++ hdr)) mod 4 = 0).
  { rewrite length_app, Nat2Z.inj_add, Hhdr, Z.add_mod, Hal by lia. reflexivity. }
  destruct (item_foreach_image bo items (before ++ hdr) rest Hall Hal')
    as (offs & Hwalk & Hread & Halign).
  assert (Hbuf : buf = (before ++ hdr) ++ items_image bo items ++ rest).
  { unfold buf. now rewrite <- app_assoc. }
  exists offs. rewrite Hbuf.
  split; [|split; [|split]]; try assumption.
  - unfold WT_ITEM_FOREACH. rewrite <- Hbuf. unfold buf.
    rewrite (dsk_entries_at bo before hdr _ _ Hhdr Hent).
    cbn [mbind option_bind]. rewrite Nat2Z.id.
    unfold WT_PAGE_DISK_BYTE. rewrite <- Hhdr, <- Nat2Z.inj_add, <- length_app.
    rewrite app_assoc. exact Hwalk.
  - eapply Forall2_length, Hread.
Qed.

(** ** Walking fixed-length and run-length encoded entries *)

(** Entries of one size laid out one after the other are where a walk of
    that stride looks for them. *)
Lemma stride_locates (stride : Z) (chunks : list (list byte))
    (pre rest : list byte) :
  Forall (fun c => Z.of_nat (length c) = stride) chunks ->
  Forall2 (fun p c => Z.of_nat (length c) = stride /\
                      exists pre' rest' : list byte,
                        pre ++ concat chunks ++ rest = pre' ++ c ++ rest' /\
                        p = Z.of_nat (length pre'))
          (stride_from stride (Z.of_nat (length pre)) (length chunks)) chunks.
Proof.
  intros Hall. revert pre.
  induction Hall as [|c chunks Hc _ IH]; intros pre; cbn [length stride_from].
  - constructor.
  - constructor.
    + split; [exact Hc|]. exists pre, (concat chunks ++ rest). cbn [concat].
      now rewrite <- app_assoc.
    + replace (Z.of_nat (length pre) + stride)
        with (Z.of_nat (length (pre ++ c))) by (rewrite length_app; lia).
      specialize (IH (pre ++ c)).
      eapply Forall2_impl; [|exact IH].
      intros p c' (Hc' & pre' & rest' & Heq & Hp). split; [exact Hc'|].
      exists pre', rest'.
      split; [|exact Hp]. rewrite <- Heq. cbn [concat].
      now rewrite <- !app_assoc.
Qed.

(** X14.  [WT_FIX_FOREACH] finds every fixed-length entry again: on a page
    whose header counts [n] entries and is followed by [n] entries of
    [fixed_len] bytes each, the walk runs its body [n] times and the
    [fixed_len] bytes at the i-th pointer are the i-th entry. *)
Theorem fix_foreach_roundtrip (bo : byte_order) (flen : Z)
    (before hdr rest : list byte) (entries : list (list byte)) :
  Z.of_nat (length hdr) = WT_PAGE_DISK_SIZE ->
  load bo uint32_t hdr 20 = Some (Z.of_nat (length entries)) ->
  Forall (fun e => Z.of_nat (length e) = flen) entries ->
  let buf := before ++ hdr ++ concat entries ++ rest in
  exists ps : list ptr,
    WT_FIX_FOREACH bo buf flen (Z.of_nat (length before)) = Some ps /\
    Forall2 (fun p e => load_bytes buf p flen = Some e) ps entries.
Proof.
  intros Hhdr Hent Hall buf.
  exists (stride_from flen (Z.of_nat (length (before ++ hdr))) (length entries)).
  split.
  - unfold WT_FIX_FOREACH, buf. rewrite (dsk_entries_at bo before hdr _ _ Hhdr Hent).
    cbn [mbind option_bind]. rewrite Nat2Z.id. unfold WT_PAGE_DISK_BYTE.
    rewrite length_app, Nat2Z.inj_add, Hhdr. reflexivity.
  - pose proof (stride_locates flen entries (before ++ hdr) rest Hall) as Hloc.
    eapply Forall2_impl; [|exact Hloc].
    intros p e (He & pre' & rest' & Heq & ->).
    unfold buf. rewrite app_assoc, Heq, <- He. apply load_bytes_at.
Qed.

Lemma rle_iterate_located (bo : byte_order) (buf : list byte) (flen : Z)
    (ps : list ptr) (runs : list (Z * list byte)) :
  Forall (fun r => 0 <= fst r < 2 ^ 16 /\ Z.of_nat (length (snd r)) = flen) runs ->
  Forall2 (fun p c => exists pre' rest' : list byte,
                        buf = pre' ++ c ++ rest' /\ p = Z.of_nat (length pre'))
          ps (map (run_image bo) runs) ->
  exists qs : list ptr,
    rle_iterate_over bo buf ps = Some qs /\
    Forall2 (fun q d => load_bytes buf (WT_RLE_REPEAT_DATA q) flen = Some d)
            qs (concat (map (fun r => replicate (Z.to_nat (fst r)) (snd r)) runs)) /\
    Z.of_nat (length qs) = fold_right (fun r acc => fst r + acc) 0 runs.
Proof.
  intros Hall. revert ps.
  induction Hall as [|r runs [Hc Hd] _ IH]; intros ps Hloc; cbn [map] in Hloc.
  - apply Forall2_nil_inv_r in Hloc as ->.
    exists []. cbn. repeat split; constructor.
  - apply Forall2_cons_inv_r in Hloc
      as (p & ps' & (pre' & rest' & Hbuf & Hp) & Htl & ->).
    destruct (IH _ Htl) as (qs & Hit & Hread & Hlen).
    assert (Hcount : WT_RLE_REPEAT_COUNT bo (pre' ++ run_image bo r ++ rest')
                       (Z.of_nat (length pre')) = Some (fst r)).
    { unfold WT_RLE_REPEAT_COUNT, run_image. rewrite <- app_assoc.
      apply load_at. apply fits_iff. cbn [sizeof]. lia. }
    assert (Hdata : load_bytes (pre' ++ run_image bo r ++ rest')
                      (WT_RLE_REPEAT_DATA (Z.of_nat (length pre'))) flen
                    = Some (snd r)).
    { unfold run_image. rewrite <- app_assoc, app_assoc.
      replace (WT_RLE_REPEAT_DATA (Z.of_nat (length pre')))
        with (Z.of_nat (length (pre' ++ put bo uint16_t (fst r))))
        by (rewrite length_app, length_put; unfold WT_RLE_REPEAT_DATA;
            cbn [sizeof]; lia).
      rewrite <- Hd. apply load_bytes_at. }
    rewrite <- Hbuf in Hcount, Hdata. subst p.
    exists (replicate (Z.to_nat (fst r)) (Z.of_nat (length pre')) ++ qs).
    split; [|split].
    + cbn [rle_iterate_over]. rewrite Hcount.
      cbn [mbind option_bind]. rewrite Hit. reflexivity.
    + cbn [map concat]. apply Forall2_app; [|exact Hread].
      generalize (Z.to_nat (fst r)) as k. induction k as [|k IHk]; cbn [replicate].
      * constructor.
      * constructor; [exact Hdata | exact IHk].
    + rewrite length_app, length_replicate, Nat2Z.inj_add.
      cbn [fold_right]. rewrite <- Hlen, Z2Nat.id by apply Hc. reflexivity.
Qed.

(** X15.  [WT_RLE_REPEAT_ITERATE] expands the runs: on a page whose header
    counts [n] entries and is followed by [n] runs (a 16-bit count, then
    [fixed_len] bytes of data), the body runs once for every record, the
    sum of the counts in all, and the data it sees is each run's data
    repeated as often as its count says, a run of count 0 not at all. *)
Theorem rle_iterate_expands (bo : byte_order) (flen : Z)
    (before hdr rest : list byte) (runs : list (Z * list byte)) :
  Z.of_nat (length hdr) = WT_PAGE_DISK_SIZE ->
  load bo uint32_t hdr 20 = Some (Z.of_nat (length runs)) ->
  Forall (fun r => 0 <= fst r < 2 ^ 16 /\ Z.of_nat (length (snd r)) = flen) runs ->
  let buf := before ++ hdr ++ concat (map (run_image bo) runs) ++ rest in
  exists qs : list ptr,
    WT_RLE_REPEAT_ITERATE bo buf flen (Z.of_nat (length before)) = Some qs /\
    Forall2 (fun q d => load_bytes buf (WT_RLE_REPEAT_DATA q) flen = Some d)
            qs (concat (map (fun r => replicate (Z.to_nat (fst r)) (snd r)) runs)) /\
    Z.of_nat (length qs) = fold_right (fun r acc => fst r + acc) 0 runs.
Proof.
  intros Hhdr Hent Hall buf.
  assert (Hchunks : Forall (fun c => Z.of_nat (length c) = flen + sizeof uint16_t)
                      (map (run_image bo) runs)).
  { apply Forall_map. eapply Forall_impl; [|exact Hall].
    intros r [_ Hd]. unfold run_image.
    rewrite length_app, length_put, Nat2Z.inj_add, Hd. cbn [sizeof]. lia. }
  pose proof (stride_locates _ _ (before ++ hdr) rest Hchunks) as Hloc.
  rewrite length_map in Hloc.
  assert (Hbuf : buf = (before ++ hdr) ++ concat (map (run_image bo) runs) ++ rest).
  { unfold buf. now rewrite <- app_assoc. }
  destruct (rle_iterate_located bo buf flen
              (stride_from (flen + sizeof uint16_t)
                 (Z.of_nat (length (before ++ hdr))) (length runs)) runs Hall)
    as (qs & Hit & Hread & Hlen).
  { eapply Forall2_impl; [|exact Hloc].
    intros p c (_ & pre' & rest' & Heq & Hp). exists pre', rest'.
    split; [now rewrite Hbuf|exact Hp]. }
  exists qs. split; [|split; assumption].
  assert (Hn : dsk_entries bo buf (Z.of_nat (length before))
               = Some (Z.of_nat (length runs)))
    by (unfold buf; now apply dsk_entries_at).
  unfold WT_RLE_REPEAT_ITERATE, WT_RLE_REPEAT_FOREACH. rewrite Hn.
  cbn [mbind option_bind]. rewrite Nat2Z.id. unfold WT_PAGE_DISK_BYTE.
  rewrite length_app, Nat2Z.inj_add, Hhdr in Hit. exact Hit.
Qed.

Lemma fix_delete_bit (b : byte) :
  Z.land (byte.unsigned b) WT_FIX_DELETE_BYTE
  = if 128 <=? byte.unsigned b then WT_FIX_DELETE_BYTE else 0.
Proof. destruct b; reflexivity. Qed.

Lemma load_byte_at (b : byte) (pre rest : list byte) :
  load LittleEndian uint8_t (pre ++ b :: rest) (Z.of_nat (length pre))
  = Some (byte.unsigned b).
Proof.
  unfold load. rewrite (proj2 (in_bounds_iff _ _ _))
    by (rewrite length_app; cbn [length sizeof]; lia).
  unfold get. rewrite Nat2Z.id, drop_app_length. cbn [sizeof].
  change (Z.to_nat 1) with 1%nat. cbn [take]. now rewrite le_combine_1.
Qed.

(** X16.  The delete flag of a fixed-length entry is the top bit of its
    first byte: an entry tests as deleted exactly when that byte is 0x80 or
    more; [WT_FIX_DELETE_SET] overwrites the byte with 0x80, so the entry
    tests as deleted afterwards, the other seven bits of its first byte are
    gone, and every other byte of the page is as it was. *)
Theorem fix_delete_flag (b : byte) (pre rest : list byte) :
  WT_FIX_DELETE_ISSET (pre ++ b :: rest) (Z.of_nat (length pre))
    = Some (if 128 <=? byte.unsigned b then WT_FIX_DELETE_BYTE else 0) /\
  WT_FIX_DELETE_SET (pre ++ b :: rest) (Z.of_nat (length pre))
    = Some (pre ++ Byte.x80 :: rest) /\
  WT_FIX_DELETE_ISSET (pre ++ Byte.x80 :: rest) (Z.of_nat (length pre))
    = Some WT_FIX_DELETE_BYTE.
Proof.
  split; [|split].
  - unfold WT_FIX_DELETE_ISSET. rewrite load_byte_at.
    cbn [mbind option_bind]. now rewrite fix_delete_bit.
  - unfold WT_FIX_DELETE_SET.
    rewrite (proj2 (in_bounds_iff _ _ _))
      by (rewrite length_app; cbn [length]; lia).
    rewrite Nat2Z.id. f_equal.
    rewrite insert_app_r_alt by lia. rewrite Nat.sub_diag. reflexivity.
  - unfold WT_FIX_DELETE_ISSET. rewrite load_byte_at. reflexivity.
Qed.

Example fix_delete_loses_data :
  WT_FIX_DELETE_SET [Byte.x11; Byte.x7f; Byte.x22] 1
  = Some [Byte.x11; Byte.x80; Byte.x22].
Proof. reflexivity. Qed.

Lemma item_foreach_roundtrip_witness :
  exists offs : list ptr,
    WT_ITEM_FOREACH LittleEndian sample_item_page 0 = Some offs /\
    length offs = 2%nat.
Proof.
  destruct (item_foreach_roundtrip LittleEndian []
              (header_of_entries LittleEndian 2) [] sample_items)
    as (offs & Hwalk & Hlen & _).
  - reflexivity.
  - reflexivity.
  - reflexivity.
  - repeat constructor; unfold WT_ITEM_MAX_LEN; cbn; lia.
  - exists offs. split; [exact Hwalk | exact Hlen].
Defined.

Example sample_item_walk :
  WT_ITEM_FOREACH LittleEndian sample_item_page 0 = Some [28; 36] /\
  item_read LittleEndian sample_item_page 28
    = Some (WT_ITEM_KEY, 3, [Byte.x61; Byte.x62; Byte.x63]) /\
  item_read LittleEndian sample_item_page 36 = Some (WT_ITEM_DATA, 1, [Byte.x01]) /\
  length sample_item_page = 44%nat.
Proof. vm_compute. repeat split. Qed.

(** A header that counts no entries: the body never runs and no item is
    read, even where there is no room for one; a header that counts more
    items than the page holds walks off its end. *)
Example item_walk_edges :
  WT_ITEM_FOREACH LittleEndian (header_of_entries LittleEndian 0) 0 = Some [] /\
  WT_ITEM_FOREACH LittleEndian
    (header_of_entries LittleEndian 3 ++ items_image LittleEndian sample_items) 0
    = None.
Proof. vm_compute. split; reflexivity. Qed.

Lemma fix_foreach_roundtrip_witness :
  exists ps : list ptr,
    WT_FIX_FOREACH LittleEndian sample_fix_page 2 0 = Some ps /\
    Forall2 (fun p e => load_bytes sample_fix_page p 2 = Some e)
      ps sample_fix_entries.
Proof.
  apply (fix_foreach_roundtrip LittleEndian 2 []
           (header_of_entries LittleEndian 2) [] sample_fix_entries).
  - reflexivity.
  - reflexivity.
  - repeat constructor.
Defined.

Lemma rle_iterate_expands_witness :
  exists qs : list ptr,
    WT_RLE_REPEAT_ITERATE LittleEndian sample_rle_page 1 0 = Some qs /\
    Z.of_nat (length qs) = 5.
Proof.
  destruct (rle_iterate_expands LittleEndian 1 []
              (header_of_entries LittleEndian 3) [] sample_runs)
    as (qs & Hit & _ & Hlen).
  - reflexivity.
  - reflexivity.
  - repeat constructor; cbn; lia.
  - exists qs. split; [exact Hit | exact Hlen].
Defined.

Example sample_rle_walk :
  WT_RLE_REPEAT_ITERATE LittleEndian sample_rle_page 1 0
    = Some [28; 28; 28; 34; 34] /\
  load_bytes sample_rle_page (WT_RLE_REPEAT_DATA 28) 1 = Some [Byte.x07] /\
  load_bytes sample_rle_page (WT_RLE_REPEAT_DATA 34) 1 = Some [Byte.x09].
Proof. vm_compute. repeat split. Qed.

(** ** The index and its parallel arrays *)

Lemma stride_from_nth (stride base : Z) (n : nat) :
  stride_from stride base n
  = map (fun k : nat => base + Z.of_nat k * stride) (seq 0 n).
Proof.
  revert base. induction n as [|n IH]; intros base; [reflexivity|].
  cbn [stride_from seq map]. f_equal; [lia|].
  rewrite IH, <- seq_shift, map_map. apply map_ext. intros k. lia.
Qed.

Lemma map_lookup_seq {A : Type} (a : list A) :
  map (fun k : nat => a !! k) (seq 0 (length a)) = map Some a.
Proof.
  apply list_eq. intros i. rewrite !list_lookup_fmap.
  destruct (decide (i < length a)%nat) as [Hlt | Hge].
  - rewrite lookup_seq_lt by lia. cbn.
    destruct (lookup_lt_is_Some_2 a i Hlt) as [x Hx]. now rewrite Hx.
  - rewrite lookup_seq_ge by lia. rewrite lookup_ge_None_2 by lia. reflexivity.
Qed.

Lemma row_repl_allocated (page : WT_PAGE) (a : list ptr) (k : Z) :
  u2 page = Some a -> 0 <= k <= UINT32_MAX ->
  WT_ROW_REPL page (row_entry page k) = a !! Z.to_nat k.
Proof.
  intros H2 Hk. unfold WT_ROW_REPL, __WT_ROW_ARRAY, u2_repl. rewrite H2.
  rewrite row_slot_of_entry by lia. unfold array_read.
  now rewrite (proj2 (Z.ltb_ge k 0)) by lia.
Qed.

Lemma col_repl_entry (page : WT_PAGE) (a : list ptr) (k : Z) :
  u2 page = Some a -> 0 <= k <= UINT32_MAX ->
  WT_COL_REPL page (col_entry page k) = a !! Z.to_nat k.
Proof.
  intros H2 Hk. unfold WT_COL_REPL, __WT_COL_ARRAY, u2_repl. rewrite H2.
  rewrite col_slot_of_entry by lia. unfold array_read.
  now rewrite (proj2 (Z.ltb_ge k 0)) by lia.
Qed.

(** X17.  The modification array maps one-to-one to the index: on a page
    whose array has one slot per index entry, looking up [WT_COL_REPL] (or
    [WT_ROW_REPL] on a row-store page) at each entry that
    [WT_INDX_FOREACH] visits gives the slots in order, the same list that
    [WT_REPL_FOREACH] walks. *)
Theorem parallel_array_one_to_one (page : WT_PAGE) (a : list ptr) :
  u2 page = Some a ->
  Z.of_nat (length a) = indx_count page ->
  indx_count page <= UINT32_MAX + 1 ->
  map (WT_COL_REPL page) (WT_INDX_FOREACH WT_COL_SIZE page) = map Some a /\
  map (WT_ROW_REPL page) (WT_INDX_FOREACH WT_ROW_SIZE page) = map Some a /\
  WT_REPL_FOREACH page = Some a.
Proof.
  intros H2 Hlen Hmax.
  assert (Hn : Z.to_nat (indx_count page) = length a) by lia.
  assert (Hwalk : forall (elem : Z) (f : ptr -> option ptr),
             (forall k, 0 <= k <= UINT32_MAX ->
                        f (u_indx page + k * elem) = a !! Z.to_nat k) ->
             map f (WT_INDX_FOREACH elem page) = map Some a).
  { intros elem f Hf. unfold WT_INDX_FOREACH.
    rewrite Hn, stride_from_nth, map_map, <- map_lookup_seq.
    apply map_ext_in. intros k Hk. apply in_seq in Hk.
    rewrite Hf by lia. now rewrite Nat2Z.id. }
  split; [|split].
  - apply Hwalk. intros k Hk. now apply col_repl_entry.
  - apply Hwalk. intros k Hk. now apply row_repl_allocated.
  - unfold WT_REPL_FOREACH. rewrite Hn, H2.
    destruct a as [|x a']; [reflexivity|]. cbn [length].
    rewrite decide_True by lia. f_equal. apply take_ge. cbn [length]. lia.
Qed.

Lemma parallel_array_one_to_one_witness :
  map (WT_COL_REPL modified_page) (WT_INDX_FOREACH WT_COL_SIZE modified_page)
    = map Some [NULL; 12288; NULL] /\
  map (WT_ROW_REPL modified_page) (WT_INDX_FOREACH WT_ROW_SIZE modified_page)
    = map Some [NULL; 12288; NULL] /\
  WT_REPL_FOREACH modified_page = Some [NULL; 12288; NULL].
Proof.
  apply (parallel_array_one_to_one modified_page [NULL; 12288; NULL]).
  - reflexivity.
  - reflexivity.
  - unfold UINT32_MAX. cbn [indx_count modified_page]. lia.
Defined.

(** [WT_REPL_FOREACH] on a page with entries and no array reads through a
    NULL pointer; on a page without entries it reads nothing. *)
Example repl_foreach_unallocated :
  WT_REPL_FOREACH sample_page = None /\
  WT_REPL_FOREACH (set_u2 None {| page_addr := 0; page_size := 0;
     page_records := 0; parent := NULL; parent_off := NULL; dsk := 0;
     read_gen := 0; disk_gen := 0; write_gen := 0; indx_count := 0;
     u_indx := 0; u2 := None; u3 := U3_NULL |}) = Some [].
Proof. split; reflexivity. Qed.

(** ** More on the life cycle of a page reference *)

Lemma exec_readers_length (a : actor) (s s' : cache_sys) (e : event) :
  exec a s = Some (e, s') -> length (readers s') = length (readers s).
Proof.
  destruct a as [j | p |]; cbn [exec].
  - unfold reader_step.
    destruct (readers s !! j) as [[| | hp | hp]|];
      try destruct (ref_state (ref s) =? WT_REF_CACHE);
      intros [= <- <-]; cbn [set_reader readers];
      rewrite ?length_insert; reflexivity.
  - unfold read_server_step.
    destruct ((ref_state (ref s) =? WT_REF_DISK) && negb (p =? NULL));
      intros [= <- <-]; reflexivity.
  - unfold evict_server_step. destruct (evictor s) as [|i].
    + destruct (ref_state (ref s) =? WT_REF_CACHE); intros [= <- <-]; reflexivity.
    + destruct (readers s !! i) as [r|];
        [destruct (bool_decide (hazard_of r = Some (ref_page (ref s))))|];
        intros [= <- <-]; reflexivity.
Qed.

(** X18.  In every reachable state the reference is in one of three
    shapes: on disk with a NULL page and no eviction under way, in the
    cache with a page and no eviction under way, or marked for eviction
    with a page while the eviction server scans.  The page pointer is NULL
    exactly when the state is [WT_REF_DISK]. *)
Theorem ref_state_shapes (s : cache_sys) :
  reachable s ->
  (ref_state (ref s) = WT_REF_DISK /\ ref_page (ref s) = NULL /\ evictor s = EIdle) \/
  (ref_state (ref s) = WT_REF_CACHE /\ ref_page (ref s) <> NULL /\ evictor s = EIdle) \/
  (ref_state (ref s) = WT_REF_EVICT /\ ref_page (ref s) <> NULL /\
   exists i : nat, evictor s = EScan i).
Proof.
  induction 1 as [n | s s' e _ IH [a Hexec]].
  - left. auto.
  - destruct a as [j | p |]; cbn [exec] in Hexec.
    + assert (Hsame : ref s' = ref s /\ evictor s' = evictor s).
      { unfold reader_step in Hexec.
        destruct (readers s !! j) as [[| | hp | hp]|];
          try destruct (ref_state (ref s) =? WT_REF_CACHE);
          try discriminate Hexec; injection Hexec as <- <-; auto. }
      destruct Hsame as [-> ->]. exact IH.
    + unfold read_server_step in Hexec.
      destruct (ref_state (ref s) =? WT_REF_DISK) eqn:Hst; [|discriminate Hexec].
      destruct (p =? NULL) eqn:Hp; [discriminate Hexec|].
      injection Hexec as <- <-. apply Z.eqb_eq in Hst. apply Z.eqb_neq in Hp.
      right. left. cbn [ref ref_state ref_page evictor].
      destruct IH as [(_ & _ & Hev) | [(Hc & _) | (He & _)]];
        [auto | rewrite Hc in Hst; discriminate Hst
        | rewrite He in Hst; discriminate Hst].
    + unfold evict_server_step in Hexec.
      destruct IH as [(Hd & _ & Hev) | [(Hc & Hp & Hev) | (He & Hp & i & Hev)]];
        rewrite Hev in Hexec.
      * rewrite Hd in Hexec. discriminate Hexec.
      * rewrite Hc in Hexec. injection Hexec as <- <-.
        right. right. cbn [ref ref_state ref_page evictor]. eauto.
      * destruct (readers s !! i) as [r|].
        -- destruct (bool_decide (hazard_of r = Some (ref_page (ref s))));
             injection Hexec as <- <-; cbn [ref ref_state ref_page evictor].
           ++ right. left. auto.
           ++ right. right. eauto.
        -- injection Hexec as <- <-. left. auto.
Qed.

Lemma ref_state_shapes_witness :
  (ref_state (ref stale_state) = WT_REF_DISK /\ ref_page (ref stale_state) = NULL /\
   evictor stale_state = EIdle) \/
  (ref_state (ref stale_state) = WT_REF_CACHE /\ ref_page (ref stale_state) <> NULL /\
   evictor stale_state = EIdle) \/
  (ref_state (ref stale_state) = WT_REF_EVICT /\ ref_page (ref stale_state) <> NULL /\
   exists i : nat, evictor stale_state = EScan i).
Proof.
  apply (ref_state_shapes stale_state).
  apply (run_reachable stale_schedule (cache_init 1) stale_state
           [Loaded 4096; Quiet; Marked; Quiet; Quiet; Reclaimed 4096;
            Loaded 8192; Quiet; Marked; Quiet]).
  - apply reach_init.
  - reflexivity.
Defined.

Lemma attempt_decided_within (sched : list actor) :
  forall (s s' : cache_sys) (es : list event) (i : nat),
    cache_inv s -> evictor s = EScan i ->
    run sched s = Some (es, s') ->
    (length (readers s) - i < evict_steps sched)%nat ->
    Exists decides es.
Proof.
  induction sched as [|a sched IH]; intros s s' es i Hinv Hev Hrun Hcount.
  - cbn in Hcount. lia.
  - cbn [run] in Hrun.
    destruct (exec a s) as [[e s1]|] eqn:Hexec; [|discriminate Hrun].
    destruct (run sched s1) as [[es1 s2]|] eqn:Hrest; [|discriminate Hrun].
    injection Hrun as <- <-.
    pose proof (cache_inv_step s s1 e Hinv (step_exec s e s1 a Hexec)) as Hinv1.
    pose proof (exec_readers_length a s s1 e Hexec) as Hlen.
    destruct a as [j | p |].
    + (* a reader: the evictor stays where it is *)
      assert (Hev1 : evictor s1 = EScan i).
      { cbn [exec] in Hexec. unfold reader_step in Hexec.
        destruct (readers s !! j) as [[| | hp | hp]|];
          try destruct (ref_state (ref s) =? WT_REF_CACHE);
          try discriminate Hexec; injection Hexec as _ <-; exact Hev. }
      apply Exists_cons_tl. apply (IH s1 s2 es1 i Hinv1 Hev1 Hrest).
      unfold evict_steps in *. rewrite filter_cons in Hcount.
      rewrite decide_False in Hcount by (cbn; discriminate). lia.
    + (* the read server cannot run while the state is WT_REF_EVICT *)
      unfold cache_inv in Hinv. rewrite Hev in Hinv. destruct Hinv as [Hst _].
      cbn [exec] in Hexec. unfold read_server_step in Hexec.
      rewrite Hst in Hexec. discriminate Hexec.
    + cbn [exec] in Hexec. unfold evict_server_step in Hexec. rewrite Hev in Hexec.
      destruct (readers s !! i) as [r|] eqn:Hi.
      * destruct (bool_decide (hazard_of r = Some (ref_page (ref s))));
          injection Hexec as <- <-.
        -- apply Exists_cons_hd. left. reflexivity.
        -- apply Exists_cons_tl.
           apply (IH _ s2 es1 (S i) Hinv1 eq_refl Hrest).
           apply lookup_lt_Some in Hi. cbn [readers].
           unfold evict_steps in *. rewrite filter_cons in Hcount.
           rewrite decide_True in Hcount by reflexivity. cbn [length] in Hcount. lia.
      * injection Hexec as <- <-. apply Exists_cons_hd. right. eauto.
Qed.

(** X19.  An eviction attempt is decided after a bounded number of the
    eviction server's own steps: once the reference is marked, any schedule
    in which the eviction server takes more steps than there are readers
    contains the event that aborts the attempt or the one that reclaims the
    page, whatever the readers do in between ("regardless, the page will
    revert to one of the WT_REF_{CACHE,DISK} states"). *)
Theorem eviction_attempt_decided (s s1 s2 : cache_sys) (sched : list actor)
    (es : list event) :
  reachable s ->
  step s Marked s1 ->
  run sched s1 = Some (es, s2) ->
  (length (readers s) < evict_steps sched)%nat ->
  Exists decides es.
Proof.
  intros Hs Hmark Hrun Hcount.
  pose proof (cache_inv_step s s1 Marked (reachable_inv s Hs) Hmark) as Hinv.
  destruct (step_marked_inv s s1 Hmark) as (_ & Heq).
  apply (attempt_decided_within sched s1 s2 es 0%nat Hinv); subst s1.
  - reflexivity.
  - exact Hrun.
  - cbn [readers]. lia.
Qed.

Lemma eviction_attempt_decided_witness :
  Exists decides [Aborted; Marked].
Proof.
  apply (eviction_attempt_decided holding_state
           {| ref := {| ref_page := 4096; ref_state := WT_REF_EVICT |};
              readers := [RHolding 4096]; evictor := EScan 0 |}
           {| ref := {| ref_page := 4096; ref_state := WT_REF_EVICT |};
              readers := [RHolding 4096]; evictor := EScan 0 |}
           [EvictServer; EvictServer]).
  - apply (run_reachable holding_schedule (cache_init 1) holding_state
             [Loaded 4096; Quiet; Quiet; Quiet]).
    + apply reach_init.
    + reflexivity.
  - apply (step_exec _ _ _ EvictServer). reflexivity.
  - reflexivity.
  - vm_compute. constructor.
Defined.

(** ** The space allocated for a page *)

Lemma page_disk_sizeof : struct_sizeof __wt_page_disk = 32.
Proof. reflexivity. Qed.

(** X20.  [WT_HDR_BYTES_TO_ALLOC] gives a whole number of allocation units
    that holds the data and [sizeof] of the page header, and less than one
    unit more than that; [sizeof] of the page header is four bytes more
    than the [WT_PAGE_DISK_SIZE] bytes that lie before the data on a page,
    so the length is at least four bytes more than the page needs;
    converting the length to an address and back is exact. *)
Theorem hdr_bytes_to_alloc_units (db : DB) (size : Z) :
  WT_BTREE_ALLOCATION_SIZE <= allocsize db <= WT_BTREE_ALLOCATION_SIZE_MAX ->
  0 <= size <= UINT32_MAX ->
  size + struct_sizeof __wt_page_disk <= WT_HDR_BYTES_TO_ALLOC db size
    < size + struct_sizeof __wt_page_disk + allocsize db /\
  size + WT_PAGE_DISK_SIZE + 4 <= WT_HDR_BYTES_TO_ALLOC db size /\
  WT_HDR_BYTES_TO_ALLOC db size mod allocsize db = 0 /\
  (WT_OFF_TO_ADDR db (WT_HDR_BYTES_TO_ALLOC db size) ≫= WT_ADDR_TO_OFF db)
    = Some (WT_HDR_BYTES_TO_ALLOC db size).
Proof.
  unfold WT_BTREE_ALLOCATION_SIZE, WT_BTREE_ALLOCATION_SIZE_MAX, WT_MEGABYTE,
    UINT32_MAX.
  intros Hu Hsize. unfold WT_HDR_BYTES_TO_ALLOC, WT_PAGE_DISK_SIZE.
  rewrite page_disk_sizeof.
  destruct (align_bounds (size + 32) (allocsize db) ltac:(lia)) as [Hb Hm].
  set (r := WT_ALIGN (size + 32) (allocsize db)) in *.
  split; [exact Hb|]. split; [lia|]. split; [exact Hm|].
  assert (Hdm : r = allocsize db * (r / allocsize db) + r mod allocsize db)
    by (apply Z.div_mod; lia).
  assert (Hq : 0 <= r / allocsize db <= 4294967295).
  { split; [apply Z.div_pos; lia|].
    apply Z.div_le_upper_bound; [lia|]. nia. }
  unfold WT_OFF_TO_ADDR.
  rewrite off_t_div_defined by (unfold OFF_T_MIN, OFF_T_MAX; lia).
  cbn [mbind option_bind]. rewrite Z.quot_div_nonneg by lia.
  unfold wrap32. rewrite Z.mod_small by lia.
  unfold WT_ADDR_TO_OFF, off_t_mul.
  rewrite (proj2 (in_off_t_iff _)) by (unfold OFF_T_MIN, OFF_T_MAX; nia).
  f_equal. lia.
Qed.

Lemma hdr_bytes_to_alloc_units_witness :
  484 + struct_sizeof __wt_page_disk <= WT_HDR_BYTES_TO_ALLOC {| allocsize := 512 |} 484
    < 484 + struct_sizeof __wt_page_disk + allocsize {| allocsize := 512 |} /\
  484 + WT_PAGE_DISK_SIZE + 4 <= WT_HDR_BYTES_TO_ALLOC {| allocsize := 512 |} 484 /\
  WT_HDR_BYTES_TO_ALLOC {| allocsize := 512 |} 484 mod allocsize {| allocsize := 512 |} = 0 /\
  (WT_OFF_TO_ADDR {| allocsize := 512 |} (WT_HDR_BYTES_TO_ALLOC {| allocsize := 512 |} 484)
     ≫= WT_ADDR_TO_OFF {| allocsize := 512 |})
    = Some (WT_HDR_BYTES_TO_ALLOC {| allocsize := 512 |} 484).
Proof.
  apply (hdr_bytes_to_alloc_units {| allocsize := 512 |} 484).
  - unfold WT_BTREE_ALLOCATION_SIZE, WT_BTREE_ALLOCATION_SIZE_MAX, WT_MEGABYTE.
    cbn [allocsize]. lia.
  - unfold UINT32_MAX. lia.
Defined.

(** 484 bytes of data and the 28 bytes before them fill one unit of 512
    bytes; the macro allots two. *)
Example hdr_bytes_to_alloc_sample :
  484 + WT_PAGE_DISK_SIZE = 512 /\
  WT_HDR_BYTES_TO_ALLOC {| allocsize := 512 |} 480 = 512 /\
  WT_HDR_BYTES_TO_ALLOC {| allocsize := 512 |} 484 = 1024.
Proof. repeat split; reflexivity. Qed.
